(** * A shallow embedding of the Raft peer of xapon/raft

    The development follows the later of the two variants of the peer (the
    one with log replication): its RPC handlers [AppendEntries] and
    [RequestVote], the role transitions, [Make], [Start] and the reply half
    of the per-follower replication loop [updatePeer].

    Conventions.
    - Go's [int] is a 64-bit two's-complement integer.  It is carried by
      [Z]; an addition or subtraction that can leave the range at its
      program point goes through [int_add] / [int_sub], which wrap.  The
      others are exact and the reason is given where they occur.  [len] of
      a slice lies in [0, MaxInt], so [len l - 1] is exact.
    - Indexing or slicing out of range panics in Go.  Code that indexes
      runs in the [option] monad; [None] is the panic.
    - The peer's mutex is held for the whole of every function modelled
      here, so each one is a function of the state at entry.
    - A buffered channel is the list of the messages sent on it, oldest
      first.  The buffers (100 and 500 slots) are taken to have room.
    - [Debug] is declared outside the files at hand.  It is taken to be 0,
      as in the course skeleton, so [DPrintf] returns at once and does not
      touch the peer.  Go still evaluates its arguments: an argument that
      indexes a slice is kept, as it can panic.
    - The file has three parts: the model and the predicates the
      statements use; the facts, over any type of commands; and concrete
      scenarios, with integers for commands. *)

From Stdlib Require Import ZArith Lia Bool List.
From stdpp Require Import base list.
Import ListNotations.

Local Open Scope Z_scope.

(** ** Go integers *)

Definition MaxInt : Z := 2 ^ 63 - 1.
Definition MinInt : Z := - 2 ^ 63.

Definition int_wrap (z : Z) : Z := (z + 2 ^ 63) mod 2 ^ 64 - 2 ^ 63.
Definition int_add (a b : Z) : Z := int_wrap (a + b).
Definition int_sub (a b : Z) : Z := int_wrap (a - b).

Definition is_int (z : Z) : Prop := MinInt <= z <= MaxInt.

(** ** The panic monad *)

Definition panic {A : Type} : option A := None.

Notation "x <- m ;; k" := (match m with Some x => k | None => None end)
  (at level 20, m at level 99, k at level 200, only parsing).
Notation "' p <- m ;; k" := (match m with Some p => k | None => None end)
  (at level 20, p pattern, m at level 99, k at level 200, only parsing).

(** ** Slices *)

Definition len {A : Type} (l : list A) : Z := Z.of_nat (length l).

(** [l[i]] *)
Definition index {A : Type} (l : list A) (i : Z) : option A :=
  if i <? 0 then panic else l !! Z.to_nat i.

(** [l[0:hi]], for a slice whose capacity is its length *)
Definition slice_to {A : Type} (l : list A) (hi : Z) : option (list A) :=
  if (0 <=? hi) && (hi <=? len l) then Some (take (Z.to_nat hi) l) else panic.

(** [l[i] = x] *)
Definition store {A : Type} (l : list A) (i : Z) (x : A) : option (list A) :=
  if (0 <=? i) && (i <? len l) then Some (<[Z.to_nat i := x]> l) else panic.

(** Modelled from the spec: the helper [min] is declared outside the files
    at hand; the spec reads [min(LeaderCommitIndex, lastLogIndex)] as the
    smaller of the two. *)
Definition min (a b : Z) : Z := if a <? b then a else b.

(** ** Constants *)

Definition STATUS_FOLLOWER : Z := 0.
Definition STATUS_CANDIDATE : Z := 1.
Definition STATUS_LEADER : Z := 2.

(** The sentinel that [votedFor] holds when no vote was given. *)
Definition NONE : Z := -1.

(** ** The election timer: the operations applied to it, oldest first *)

Inductive TimerOp : Type := TimerReset | TimerStop.

(** An RPC end point; only the number of end points matters here. *)
Inductive ClientEnd : Type := clientEnd (endname : Z).

Section Peer.

(** Commands are opaque ([interface{}] in the source). *)
Context {Cmd : Type}.

(** ** Data *)

Record ApplyMsg : Type := mkApplyMsg {
  am_Index : Z;
  am_Command : Cmd
}.

Record Log : Type := mkLog {
  Command : Cmd;
  Term : Z;
  Position : Z
}.

Record PeerUpdateCmd : Type := mkPeerUpdateCmd {
  puc_Entry : Z;
  puc_Term : Z
}.

Record Raft : Type := mkRaft {
  peers : list ClientEnd;
  me : Z;
  currentTerm : Z;
  votedFor : Z;
  logEntries : list Log;
  commitIndex : Z;
  lastApplied : Z;
  status : Z;
  nextIndex : list Z;
  matchIndex : list Z;
  updatingPeers : list bool;
  peerUpdates : list (list PeerUpdateCmd);
  electionTimer : list TimerOp;
  commitCh : list ApplyMsg;
  (* goroutines running [broadcastHeartbeats] started so far *)
  heartbeatBroadcasts : nat
}.

Record AppendEntriesArgs : Type := mkAppendEntriesArgs {
  ae_Term : Z;
  ae_LeaderId : Z;
  ae_PrevLogIndex : Z;
  ae_PrevLogTerm : Z;
  ae_LogEntries : list Log;
  ae_LeaderCommitIndex : Z
}.

Record AppendEntriesReply : Type := mkAppendEntriesReply {
  aer_Term : Z;
  aer_Success : bool;
  aer_PeerIndex : Z;
  aer_NextIndex : Z
}.

Record RequestVoteArgs : Type := mkRequestVoteArgs {
  rv_Term : Z;
  rv_CandidateId : Z;
  rv_LastLogIndex : Z;
  rv_LastLogTerm : Z
}.

Record RequestVoteReply : Type := mkRequestVoteReply {
  rvr_Term : Z;
  rvr_VoteGranted : bool
}.

(** ** Field updates *)

Definition set_currentTerm (rf : Raft) (v : Z) : Raft :=
  mkRaft (peers rf) (me rf) v (votedFor rf) (logEntries rf) (commitIndex rf)
    (lastApplied rf) (status rf) (nextIndex rf) (matchIndex rf)
    (updatingPeers rf) (peerUpdates rf) (electionTimer rf) (commitCh rf)
    (heartbeatBroadcasts rf).

Definition set_votedFor (rf : Raft) (v : Z) : Raft :=
  mkRaft (peers rf) (me rf) (currentTerm rf) v (logEntries rf) (commitIndex rf)
    (lastApplied rf) (status rf) (nextIndex rf) (matchIndex rf)
    (updatingPeers rf) (peerUpdates rf) (electionTimer rf) (commitCh rf)
    (heartbeatBroadcasts rf).

Definition set_logEntries (rf : Raft) (v : list Log) : Raft :=
  mkRaft (peers rf) (me rf) (currentTerm rf) (votedFor rf) v (commitIndex rf)
    (lastApplied rf) (status rf) (nextIndex rf) (matchIndex rf)
    (updatingPeers rf) (peerUpdates rf) (electionTimer rf) (commitCh rf)
    (heartbeatBroadcasts rf).

Definition set_commitIndex (rf : Raft) (v : Z) : Raft :=
  mkRaft (peers rf) (me rf) (currentTerm rf) (votedFor rf) (logEntries rf) v
    (lastApplied rf) (status rf) (nextIndex rf) (matchIndex rf)
    (updatingPeers rf) (peerUpdates rf) (electionTimer rf) (commitCh rf)
    (heartbeatBroadcasts rf).

Definition set_lastApplied (rf : Raft) (v : Z) : Raft :=
  mkRaft (peers rf) (me rf) (currentTerm rf) (votedFor rf) (logEntries rf)
    (commitIndex rf) v (status rf) (nextIndex rf) (matchIndex rf)
    (updatingPeers rf) (peerUpdates rf) (electionTimer rf) (commitCh rf)
    (heartbeatBroadcasts rf).

Definition set_status (rf : Raft) (v : Z) : Raft :=
  mkRaft (peers rf) (me rf) (currentTerm rf) (votedFor rf) (logEntries rf)
    (commitIndex rf) (lastApplied rf) v (nextIndex rf) (matchIndex rf)
    (updatingPeers rf) (peerUpdates rf) (electionTimer rf) (commitCh rf)
    (heartbeatBroadcasts rf).

Definition set_nextIndex (rf : Raft) (v : list Z) : Raft :=
  mkRaft (peers rf) (me rf) (currentTerm rf) (votedFor rf) (logEntries rf)
    (commitIndex rf) (lastApplied rf) (status rf) v (matchIndex rf)
    (updatingPeers rf) (peerUpdates rf) (electionTimer rf) (commitCh rf)
    (heartbeatBroadcasts rf).

Definition set_matchIndex (rf : Raft) (v : list Z) : Raft :=
  mkRaft (peers rf) (me rf) (currentTerm rf) (votedFor rf) (logEntries rf)
    (commitIndex rf) (lastApplied rf) (status rf) (nextIndex rf) v
    (updatingPeers rf) (peerUpdates rf) (electionTimer rf) (commitCh rf)
    (heartbeatBroadcasts rf).

Definition set_updatingPeers (rf : Raft) (v : list bool) : Raft :=
  mkRaft (peers rf) (me rf) (currentTerm rf) (votedFor rf) (logEntries rf)
    (commitIndex rf) (lastApplied rf) (status rf) (nextIndex rf) (matchIndex rf)
    v (peerUpdates rf) (electionTimer rf) (commitCh rf)
    (heartbeatBroadcasts rf).

Definition set_peerUpdates (rf : Raft) (v : list (list PeerUpdateCmd)) : Raft :=
  mkRaft (peers rf) (me rf) (currentTerm rf) (votedFor rf) (logEntries rf)
    (commitIndex rf) (lastApplied rf) (status rf) (nextIndex rf) (matchIndex rf)
    (updatingPeers rf) v (electionTimer rf) (commitCh rf)
    (heartbeatBroadcasts rf).

Definition set_electionTimer (rf : Raft) (v : list TimerOp) : Raft :=
  mkRaft (peers rf) (me rf) (currentTerm rf) (votedFor rf) (logEntries rf)
    (commitIndex rf) (lastApplied rf) (status rf) (nextIndex rf) (matchIndex rf)
    (updatingPeers rf) (peerUpdates rf) v (commitCh rf)
    (heartbeatBroadcasts rf).

Definition set_commitCh (rf : Raft) (v : list ApplyMsg) : Raft :=
  mkRaft (peers rf) (me rf) (currentTerm rf) (votedFor rf) (logEntries rf)
    (commitIndex rf) (lastApplied rf) (status rf) (nextIndex rf) (matchIndex rf)
    (updatingPeers rf) (peerUpdates rf) (electionTimer rf) v
    (heartbeatBroadcasts rf).

Definition set_heartbeatBroadcasts (rf : Raft) (v : nat) : Raft :=
  mkRaft (peers rf) (me rf) (currentTerm rf) (votedFor rf) (logEntries rf)
    (commitIndex rf) (lastApplied rf) (status rf) (nextIndex rf) (matchIndex rf)
    (updatingPeers rf) (peerUpdates rf) (electionTimer rf) (commitCh rf) v.

Definition set_Success (r : AppendEntriesReply) (v : bool) : AppendEntriesReply :=
  mkAppendEntriesReply (aer_Term r) v (aer_PeerIndex r) (aer_NextIndex r).

Definition set_NextIndex (r : AppendEntriesReply) (v : Z) : AppendEntriesReply :=
  mkAppendEntriesReply (aer_Term r) (aer_Success r) (aer_PeerIndex r) v.

Definition set_Term (r : AppendEntriesReply) (v : Z) : AppendEntriesReply :=
  mkAppendEntriesReply v (aer_Success r) (aer_PeerIndex r) (aer_NextIndex r).

(** ** Timers and majority *)

(** [rf.electionTimer.Reset(getElectionTimeout())]; the duration is drawn
    outside this file and is not recorded. *)
Definition resetElectionTimer (rf : Raft) : Raft :=
  set_electionTimer rf (electionTimer rf ++ [TimerReset]).

Definition getMajoritySize (rf : Raft) : Z := len (peers rf) / 2 + 1.

(** ** Role transitions *)

Definition becomeFollower (rf : Raft) (newTerm : Z) : Raft * Z :=
  let rf := if negb (status rf =? STATUS_FOLLOWER)
            then set_status rf STATUS_FOLLOWER else rf in
  let rf := set_votedFor rf (-1) in
  let rf := if negb (currentTerm rf =? newTerm)
            then set_currentTerm rf newTerm else rf in
  (rf, status rf).

Definition becomeFollowerIfTermIsOlder (rf : Raft) (term : Z) : Raft * Z :=
  if currentTerm rf <? term then becomeFollower rf term else (rf, status rf).

Definition becomeFollowerIfTermIsOlderOrEqual (rf : Raft) (term : Z) : Raft * Z :=
  if currentTerm rf <=? term then becomeFollower rf term else (rf, status rf).

Definition BecomeCandidate (rf : Raft) : Raft :=
  let rf := set_status rf STATUS_CANDIDATE in
  let rf := set_currentTerm rf (int_add (currentTerm rf) 1) in
  set_votedFor rf (me rf).

(** [make([]T, n)] followed by a loop that fills every index. *)
Definition filled {A : Type} (n : nat) (f : Z -> A) : list A :=
  map (fun i => f (Z.of_nat i)) (seq 0 n).

(** [rf.electionTimer.Stop()], with the drain of the timer's channel when
    it had fired, is recorded as one [TimerStop]; [go
    rf.broadcastHeartbeats()] as one more broadcast started. *)
Definition BecomeLeader (rf : Raft) : option Raft :=
  let rf := if negb (status rf =? STATUS_LEADER)
            then set_status rf STATUS_LEADER else rf in
  let rf := set_votedFor rf (-1) in
  let rf := set_electionTimer rf (electionTimer rf ++ [TimerStop]) in
  let n := length (peers rf) in
  let rf := set_nextIndex rf (filled n (fun _ => len (logEntries rf) - 1)) in
  let rf := set_matchIndex rf
              (filled n (fun index => if index =? me rf
                                      then len (logEntries rf) - 1 else -1)) in
  (* [rf.updatingPeers[i] = false] for every [i] in range of [peers] *)
  u <- (if Z.of_nat n <=? len (updatingPeers rf)
        then Some (filled n (fun _ => false) ++ drop n (updatingPeers rf))
        else panic) ;;
  let rf := set_updatingPeers rf u in
  Some (set_heartbeatBroadcasts rf (S (heartbeatBroadcasts rf))).

(** [Make]: the peer as it is handed back.  The goroutines it starts
    ([runTimers], the per-peer update loops, [commitInBackground]) run the
    functions below; [currentTerm] has Go's zero value, and [nextIndex] and
    [matchIndex] are nil until [BecomeLeader] makes them. *)
Definition Make (ends : list ClientEnd) (self : Z) : Raft :=
  let n := length ends in
  mkRaft ends self 0 (-1) [] (-1) (-1) STATUS_FOLLOWER [] []
    (filled n (fun _ => false)) (filled n (fun _ => [])) [] [] 0.

(** ** The AppendEntries RPC handler *)

(** The loop [for oldCommitIndex <= rf.commitIndex { ...; oldCommitIndex++ }]
    of the handler.  [n] counts the iterations left; the handler passes the
    distance from [oldCommitIndex] to [rf.commitIndex], which the body does
    not change.  [oldCommitIndex] stays at most [len(rf.logEntries)], so the
    increments are exact. *)
Fixpoint commitLoop (n : nat) (oldCommitIndex : Z) (rf : Raft) : option Raft :=
  match n with
  | O => Some rf
  | S n' =>
      rf <- (if oldCommitIndex >=? 0 then
               e <- index (logEntries rf) oldCommitIndex ;;
               let cmdToSend := Command e in
               Some (set_commitCh rf
                       (commitCh rf ++ [mkApplyMsg (oldCommitIndex + 1) cmdToSend]))
             else Some rf) ;;
      commitLoop n' (oldCommitIndex + 1) rf
  end.

(** [reply] is the struct the caller passes by pointer: a field the handler
    does not assign keeps the value it came with.  [rf.commitIndex + 1] and
    [args.PrevLogIndex+1] are exact where they are evaluated: the first
    under [rf.commitIndex < args.LeaderCommitIndex], the second under
    [-1 < args.PrevLogIndex < len(rf.logEntries)]. *)
Definition AppendEntries (rf : Raft) (args : AppendEntriesArgs)
    (reply : AppendEntriesReply) : option (Raft * AppendEntriesReply) :=
  let rf := fst (becomeFollowerIfTermIsOlderOrEqual rf (ae_Term args)) in
  '(rf, reply) <-
    (if ae_Term args <? currentTerm rf then
       Some (rf, set_Success reply false)
     else
       let rf := resetElectionTimer rf in
       if ae_PrevLogIndex args >=? len (logEntries rf) then
         Some (rf, set_Success reply false)
       else
         mismatch <-
           (if (ae_PrevLogTerm args >? 0) && (ae_PrevLogIndex args >? -1)
            then e <- index (logEntries rf) (ae_PrevLogIndex args) ;;
                 Some (negb (ae_PrevLogTerm args =? Term e))
            else Some false) ;;
         if (mismatch : bool) then
           Some (rf, set_Success reply false)
         else
           let reply := set_Success reply true in
           '(rf, reply) <-
             (if ae_PrevLogIndex args >? -1 then
                l <- slice_to (logEntries rf) (ae_PrevLogIndex args + 1) ;;
                let rf := set_logEntries rf l in
                let rf := set_lastApplied rf (len (logEntries rf) - 1) in
                Some (rf, set_NextIndex reply (len (logEntries rf) - 1))
              else Some (rf, reply)) ;;
           if len (ae_LogEntries args) >? 0 then
             let rf := set_logEntries rf (logEntries rf ++ ae_LogEntries args) in
             let rf := set_lastApplied rf (len (logEntries rf) - 1) in
             Some (rf, set_NextIndex reply (len (logEntries rf) - 1))
           else Some (rf, reply)) ;;
  let reply := set_Term reply (currentTerm rf) in
  if aer_Success reply && (ae_LeaderCommitIndex args >? commitIndex rf) then
    let oldCommitIndex := commitIndex rf + 1 in
    let rf := set_commitIndex rf
                (min (ae_LeaderCommitIndex args) (len (logEntries rf) - 1)) in
    rf <- commitLoop (Z.to_nat (commitIndex rf - oldCommitIndex + 1))
                     oldCommitIndex rf ;;
    Some (rf, reply)
  else Some (rf, reply).

(** ** The RequestVote RPC handler *)

Definition RequestVote (rf : Raft) (args : RequestVoteArgs)
    (reply : RequestVoteReply) : option (Raft * RequestVoteReply) :=
  let rf := fst (becomeFollowerIfTermIsOlder rf (rv_Term args)) in
  let reply := mkRequestVoteReply (currentTerm rf) false in
  '(rf, reply) <-
    (if votedFor rf =? -1 then
       selfLastLogTerm <-
         (if len (logEntries rf) >? 0
          then e <- index (logEntries rf) (len (logEntries rf) - 1) ;;
               Some (Term e)
          else Some 0) ;;
       if selfLastLogTerm <? rv_LastLogTerm args then
         Some (set_votedFor rf (rv_CandidateId args),
               mkRequestVoteReply (rvr_Term reply) true)
       else if selfLastLogTerm =? rv_LastLogTerm args then
         if len (logEntries rf) <=? int_add (rv_LastLogIndex args) 1 then
           Some (set_votedFor rf (rv_CandidateId args),
                 mkRequestVoteReply (rvr_Term reply) true)
         else Some (rf, reply)
       else Some (rf, reply)
     else Some (rf, reply)) ;;
  let rf := if rvr_VoteGranted reply then resetElectionTimer rf else rf in
  Some (rf, reply).

(** ** Start *)

(** The loop of [enqueueEntryBroadcast] over the indices of [rf.peers];
    [rf.peerUpdates[i] <- cmd] appends to the queue of peer [i]. *)
Fixpoint enqueueLoop (idxs : list nat) (self : Z) (cmd : PeerUpdateCmd)
    (q : list (list PeerUpdateCmd)) : option (list (list PeerUpdateCmd)) :=
  match idxs with
  | [] => Some q
  | i :: idxs' =>
      if Z.of_nat i =? self then enqueueLoop idxs' self cmd q
      else
        ch <- index q (Z.of_nat i) ;;
        enqueueLoop idxs' self cmd (<[i := ch ++ [cmd]]> q)
  end.

Definition enqueueEntryBroadcast (rf : Raft) (cmd : PeerUpdateCmd) : option Raft :=
  if negb (status rf =? STATUS_LEADER) then Some rf
  else
    (* [rf.logEntries[cmd.Entry].Command], an argument of [DPrintf] *)
    _ <- index (logEntries rf) (puc_Entry cmd) ;;
    q <- enqueueLoop (seq 0 (length (peers rf))) (me rf) cmd (peerUpdates rf) ;;
    Some (set_peerUpdates rf q).

Definition Start (rf : Raft) (command : Cmd) : option (Raft * (Z * Z * bool)) :=
  if negb (status rf =? STATUS_LEADER) then Some (rf, (-1, -1, false))
  else
    let newLog := mkLog command (currentTerm rf) (len (logEntries rf)) in
    let rf := set_logEntries rf (logEntries rf ++ [newLog]) in
    ni <- store (nextIndex rf) (me rf) (len (logEntries rf) - 1) ;;
    let rf := set_nextIndex rf ni in
    v <- index (nextIndex rf) (me rf) ;;
    mi <- store (matchIndex rf) (me rf) v ;;
    let rf := set_matchIndex rf mi in
    let newLength := len (logEntries rf) in
    let rf := set_lastApplied rf (len (logEntries rf) - 1) in
    rf <- enqueueEntryBroadcast rf
            (mkPeerUpdateCmd (lastApplied rf) (currentTerm rf)) ;;
    Some (rf, (newLength, currentTerm rf, true)).

(** ** The replication loop of [updatePeer], from the RPC's return on

    One iteration of the [for] loop releases the mutex around the RPC.  The
    part modelled is the second critical section: from [rf.mu.Lock()] after
    [sendAppendEntries] to the end of the iteration, the deferred function
    included when the iteration returns.  [ok] and [resp] are what the RPC
    gave back. *)

Inductive Flow : Type := Returned | Retry.

(** The deferred function. *)
Definition updatePeer_defer (rf : Raft) (peer : Z) : option (Raft * Flow) :=
  u <- store (updatingPeers rf) peer false ;;
  Some (set_updatingPeers rf u, Returned).

(** [for i, _ := range rf.peers { if rf.matchIndex[i] >= entry { successCount++ } }] *)
Fixpoint countLoop (idxs : list nat) (m : list Z) (entry : Z) (successCount : Z)
    : option Z :=
  match idxs with
  | [] => Some successCount
  | i :: idxs' =>
      v <- index m (Z.of_nat i) ;;
      countLoop idxs' m entry (if v >=? entry then successCount + 1 else successCount)
  end.

Definition updatePeer_reply (rf : Raft) (peer : Z) (cmd : PeerUpdateCmd)
    (ok : bool) (resp : AppendEntriesReply) : option (Raft * Flow) :=
  let rf := if ok then fst (becomeFollowerIfTermIsOlder rf (aer_Term resp))
            else rf in
  if negb (status rf =? STATUS_LEADER) then updatePeer_defer rf peer
  else
    '(rf, returned) <-
      (if ok && aer_Success resp then
         ni <- store (nextIndex rf) (aer_PeerIndex resp) (aer_NextIndex resp) ;;
         let rf := set_nextIndex rf ni in
         v <- index (nextIndex rf) (aer_PeerIndex resp) ;;
         mi <- store (matchIndex rf) (aer_PeerIndex resp) v ;;
         let rf := set_matchIndex rf mi in
         if aer_NextIndex resp >=? puc_Entry cmd then
           u <- store (updatingPeers rf) peer false ;;
           let rf := set_updatingPeers rf u in
           successCount <- countLoop (seq 0 (length (peers rf)))
                             (matchIndex rf) (puc_Entry cmd) 0 ;;
           if successCount >=? getMajoritySize rf then
             if commitIndex rf =? int_sub (puc_Entry cmd) 1 then
               e <- index (logEntries rf) (puc_Entry cmd) ;;
               let rf := set_commitCh rf
                           (commitCh rf ++
                            [mkApplyMsg (int_add (puc_Entry cmd) 1) (Command e)]) in
               Some (set_commitIndex rf (puc_Entry cmd), true)
             else Some (rf, true)
           else Some (rf, true)
         else Some (rf, false)
       else if ok && negb (aer_Success resp) then
         v <- index (nextIndex rf) (aer_PeerIndex resp) ;;
         ni <- store (nextIndex rf) (aer_PeerIndex resp) (int_sub v 1) ;;
         Some (set_nextIndex rf ni, false)
       else Some (rf, false)) ;;
    if (returned : bool) then updatePeer_defer rf peer
    else
      (* [rf.logEntries[rf.nextIndex[resp.PeerIndex]].Command], an argument
         of the retry [DPrintf] *)
      v <- index (nextIndex rf) (aer_PeerIndex resp) ;;
      _ <- index (logEntries rf) v ;;
      Some (rf, Retry).

(** ** What the spec asks of the handlers, in the spec's own terms *)

(** The integers [lo, lo+1, ...], [n] of them. *)
Fixpoint zseq (lo : Z) (n : nat) : list Z :=
  match n with
  | O => []
  | S n' => lo :: zseq (lo + 1) n'
  end.

(** The half-open interval [(old, new]], in increasing order. *)
Definition interval_oc (old new : Z) : list Z :=
  zseq (old + 1) (Z.to_nat (new - old)).

(** [m] is [ApplyMsg{ Index: i+1, Command: log[i].Command }]. *)
Definition applies (log : list Log) (i : Z) (m : ApplyMsg) : Prop :=
  exists e, index log i = Some e /\ m = mkApplyMsg (i + 1) (Command e).

(** Following the spec's words (section 4.2, step 4): the consistency check
    [PrevLogIndex < length(log) AND (PrevLogIndex < 0 OR
    PrevLogTerm == log[PrevLogIndex].Term)]. *)
Definition consistent_spec (log : list Log) (prevLogIndex prevLogTerm : Z) : Prop :=
  prevLogIndex < len log /\
  (prevLogIndex < 0 \/
   exists e, index log prevLogIndex = Some e /\ prevLogTerm = Term e).

(** The check as the handler makes it: the term comparison is made only
    for a positive [PrevLogTerm]. *)
Definition consistent (log : list Log) (prevLogIndex prevLogTerm : Z) : Prop :=
  prevLogIndex < len log /\
  (prevLogIndex < 0 \/ prevLogTerm <= 0 \/
   exists e, index log prevLogIndex = Some e /\ prevLogTerm = Term e).

(** Following the spec's words (section 4.2, step 6): [log[0..PrevLogIndex]]
    inclusive, followed by the new entries. *)
Definition truncate_append_spec (log : list Log) (prevLogIndex : Z)
    (entries : list Log) : list Log :=
  take (Z.to_nat (prevLogIndex + 1)) log ++ entries.

(** The log the handler leaves when it accepts: nothing is cut when
    [PrevLogIndex] is negative. *)
Definition accepted_log (log : list Log) (prevLogIndex : Z)
    (entries : list Log) : list Log :=
  (if prevLogIndex >? -1 then take (Z.to_nat (prevLogIndex + 1)) log else log)
  ++ entries.

(** The state and the reply of an accepted call, but for the commit step. *)
Definition accepted_state (rf : Raft) (args : AppendEntriesArgs) : Raft :=
  let rf1 := resetElectionTimer (fst (becomeFollower rf (ae_Term args))) in
  let log' := accepted_log (logEntries rf) (ae_PrevLogIndex args)
                (ae_LogEntries args) in
  let rf2 := set_logEntries rf1 log' in
  if (ae_PrevLogIndex args >? -1) || (len (ae_LogEntries args) >? 0)
  then set_lastApplied rf2 (len log' - 1) else rf2.

Definition accepted_reply (rf : Raft) (args : AppendEntriesArgs)
    (reply : AppendEntriesReply) : AppendEntriesReply :=
  let log' := accepted_log (logEntries rf) (ae_PrevLogIndex args)
                (ae_LogEntries args) in
  mkAppendEntriesReply (ae_Term args) true (aer_PeerIndex reply)
    (if (ae_PrevLogIndex args >? -1) || (len (ae_LogEntries args) >? 0)
     then len log' - 1 else aer_NextIndex reply).

(** Claim C1 as the spec states it, for one call. *)
Definition success_iff_spec_check (rf : Raft) (args : AppendEntriesArgs)
    (reply : AppendEntriesReply) : Prop :=
  exists rf' reply',
    AppendEntries rf args reply = Some (rf', reply') /\
    (aer_Success reply' = true <->
     consistent_spec (logEntries rf) (ae_PrevLogIndex args) (ae_PrevLogTerm args)).

(** Claim C2 as the spec states it, for one call: the log left is
    [log[0..PrevLogIndex]] followed by the new entries, and [NextIndex] is
    the index of its last entry. *)
Definition truncates_and_appends (rf : Raft) (args : AppendEntriesArgs)
    (reply : AppendEntriesReply) : Prop :=
  exists rf' reply',
    AppendEntries rf args reply = Some (rf', reply') /\
    logEntries rf' =
      truncate_append_spec (logEntries rf) (ae_PrevLogIndex args)
        (ae_LogEntries args) /\
    aer_NextIndex reply' = len (logEntries rf') - 1.

(** Claim C9 as the spec states it, for one call: beyond the election
    timer nothing changes, and nothing is sent on the commit stream. *)
Definition heartbeat_is_noop (rf : Raft) (args : AppendEntriesArgs)
    (reply : AppendEntriesReply) : Prop :=
  exists rf' reply',
    AppendEntries rf args reply = Some (rf', reply') /\
    logEntries rf' = logEntries rf /\ currentTerm rf' = currentTerm rf /\
    votedFor rf' = votedFor rf /\ commitIndex rf' = commitIndex rf /\
    lastApplied rf' = lastApplied rf /\ status rf' = status rf /\
    commitCh rf' = commitCh rf.

(** The term of the peer's last log entry, 0 for an empty log. *)
Definition lastLogTerm (log : list Log) : Z :=
  match index log (len log - 1) with
  | Some e => Term e
  | None => 0
  end.

(** What [Make] and [BecomeLeader] set up for a leader: [me] names one of
    the peers, and there is one slot per peer in each per-peer slice. *)
Definition leader_wf (rf : Raft) : Prop :=
  0 <= me rf < len (peers rf) /\
  len (nextIndex rf) = len (peers rf) /\
  len (matchIndex rf) = len (peers rf) /\
  len (updatingPeers rf) = len (peers rf) /\
  len (peerUpdates rf) = len (peers rf).

(** [|{q : matchIndex[q] >= entry}|] *)
Fixpoint count_ge (entry : Z) (m : list Z) : Z :=
  match m with
  | [] => 0
  | v :: m' => (if v >=? entry then 1 else 0) + count_ge entry m'
  end.

End Peer.

(** * Scenarios

    Concrete peers and calls, with integers for commands. *)

Definition three_peers : list ClientEnd :=
  [clientEnd 0; clientEnd 1; clientEnd 2].

(** The reply struct as the RPC layer hands it to a handler. *)
Definition blank_reply : AppendEntriesReply := mkAppendEntriesReply 0 false 0 0.

Definition blank_vote : RequestVoteReply := mkRequestVoteReply 0 false.

(** Peer 1 of three as a follower, as [Make] sets it up, in a given term,
    with a given vote, log and commit index; [lastApplied] is the last
    index of the log, where every writer of the log leaves it. *)
Definition follower (term vote : Z) (log : list (@Log Z)) (commit : Z) : Raft :=
  mkRaft three_peers 1 term vote log commit (len log - 1) STATUS_FOLLOWER
    [] [] [false; false; false] [[]; []; []] [] [] 0.

(** Peer 1 of three as the leader of a term, right after [BecomeLeader]
    and later appends, nothing replicated yet. *)
Definition leader (term : Z) (log : list (@Log Z)) (commit : Z) : Raft :=
  mkRaft three_peers 1 term (-1) log commit (len log - 1) STATUS_LEADER
    [len log - 1; len log - 1; len log - 1] [-1; len log - 1; -1]
    [false; false; false] [[]; []; []] [TimerStop] [] 1.

(** Three entries of term 1 holding the commands 7, 8, 9. *)
Definition log789 : list (@Log Z) := [mkLog 7 1 0; mkLog 8 1 1; mkLog 9 1 2].

(** A heartbeat of leader 0 in term [term]: no entries. *)
Definition heartbeat (term prevLogIndex prevLogTerm leaderCommit : Z)
    : @AppendEntriesArgs Z :=
  mkAppendEntriesArgs term 0 prevLogIndex prevLogTerm [] leaderCommit.

(** The follower after a first heartbeat with [PrevLogIndex = 1]: two
    entries, no vote, the timer reset once. *)
Definition settled_follower : @Raft Z :=
  set_electionTimer (follower 1 (-1) [mkLog 7 1 0; mkLog 8 1 1] (-1))
    [TimerReset].

(** ** Proof steps used throughout *)

(** Unfold the field updates of a peer or a reply. *)
Ltac unfold_updates :=
  unfold resetElectionTimer, set_currentTerm, set_votedFor, set_logEntries,
    set_commitIndex, set_lastApplied, set_status, set_nextIndex,
    set_matchIndex, set_updatingPeers, set_peerUpdates, set_electionTimer,
    set_commitCh, set_heartbeatBroadcasts, set_Success, set_NextIndex,
    set_Term in *.

(** Read fields off explicit records. *)
Ltac read_fields :=
  cbn [peers me currentTerm votedFor logEntries commitIndex lastApplied status
       nextIndex matchIndex updatingPeers peerUpdates electionTimer commitCh
       heartbeatBroadcasts aer_Term aer_Success aer_PeerIndex aer_NextIndex
       rvr_Term rvr_VoteGranted puc_Entry puc_Term am_Index am_Command
       andb orb negb] in *.

Ltac fields := unfold_updates; read_fields.

(** For a goal in which every peer is an explicit record: run a chain of
    field updates by value, which keeps the term linear in the length of
    the chain. *)
Ltac run_updates :=
  cbv beta iota zeta delta
    [resetElectionTimer set_currentTerm set_votedFor set_logEntries
     set_commitIndex set_lastApplied set_status set_nextIndex set_matchIndex
     set_updatingPeers set_peerUpdates set_electionTimer set_commitCh
     set_heartbeatBroadcasts
     peers me currentTerm votedFor logEntries commitIndex lastApplied status
     nextIndex matchIndex updatingPeers peerUpdates electionTimer commitCh
     heartbeatBroadcasts puc_Entry puc_Term].

Section PeerFacts.

Context {Cmd : Type}.

Implicit Types (rf : @Raft Cmd) (log : list (@Log Cmd)).

(** ** Basic facts *)

Lemma int_wrap_id z : is_int z -> int_wrap z = z.
Proof.
  unfold is_int, MinInt, MaxInt, int_wrap. intros H.
  rewrite Z.mod_small; lia.
Qed.

Lemma int_add_exact a b : is_int (a + b) -> int_add a b = a + b.
Proof. apply int_wrap_id. Qed.

Lemma int_sub_exact a b : is_int (a - b) -> int_sub a b = a - b.
Proof. apply int_wrap_id. Qed.

Lemma len_nonneg {A} (l : list A) : 0 <= len l.
Proof. unfold len. lia. Qed.


Lemma len_take {A} (l : list A) (n : Z) :
  0 <= n <= len l -> len (take (Z.to_nat n) l) = n.
Proof. unfold len. intros H. rewrite length_take. lia. Qed.

Lemma index_lookup {A} (l : list A) (i : Z) :
  0 <= i -> index l i = l !! Z.to_nat i.
Proof.
  intros H. unfold index. destruct (Z.ltb_spec i 0); [lia | reflexivity].
Qed.

Lemma index_in_range {A} (l : list A) (i : Z) :
  0 <= i < len l -> exists x, index l i = Some x.
Proof.
  intros [H0 H1]. rewrite index_lookup by assumption.
  destruct (lookup_lt_is_Some_2 l (Z.to_nat i)) as [x Hx].
  - unfold len in H1. lia.
  - exists x. exact Hx.
Qed.

Lemma index_Some_range {A} (l : list A) (i : Z) (x : A) :
  index l i = Some x -> 0 <= i < len l.
Proof.
  unfold index. destruct (Z.ltb_spec i 0); [discriminate |].
  intros Hx. apply lookup_lt_Some in Hx. unfold len. lia.
Qed.

Lemma slice_to_in_range {A} (l : list A) (hi : Z) :
  0 <= hi <= len l -> slice_to l hi = Some (take (Z.to_nat hi) l).
Proof.
  intros [H0 H1]. unfold slice_to.
  destruct (Z.leb_spec 0 hi); [| lia].
  destruct (Z.leb_spec hi (len l)); [reflexivity | lia].
Qed.

Lemma store_in_range {A} (l : list A) (i : Z) (x : A) :
  0 <= i < len l -> store l i x = Some (<[Z.to_nat i := x]> l).
Proof.
  intros [H0 H1]. unfold store.
  destruct (Z.leb_spec 0 i); [| lia].
  destruct (Z.ltb_spec i (len l)); [reflexivity | lia].
Qed.

Lemma index_store_eq {A} (l : list A) (i : Z) (x : A) :
  0 <= i < len l -> index (<[Z.to_nat i := x]> l) i = Some x.
Proof.
  intros H. rewrite index_lookup by lia.
  apply list_lookup_insert_eq. unfold len in H. lia.
Qed.

Lemma len_store {A} (l : list A) (n : nat) (x : A) : len (<[n := x]> l) = len l.
Proof. unfold len. rewrite length_insert. reflexivity. Qed.

Lemma min_spec a b : min a b = Z.min a b.
Proof. unfold min. destruct (Z.ltb_spec a b); lia. Qed.

(** ** The step-down helpers *)

Lemma becomeFollower_fields rf t :
  let rf' := fst (becomeFollower rf t) in
  currentTerm rf' = t /\ votedFor rf' = -1 /\ status rf' = STATUS_FOLLOWER /\
  peers rf' = peers rf /\ me rf' = me rf /\ logEntries rf' = logEntries rf /\
  commitIndex rf' = commitIndex rf /\ lastApplied rf' = lastApplied rf /\
  nextIndex rf' = nextIndex rf /\ matchIndex rf' = matchIndex rf /\
  updatingPeers rf' = updatingPeers rf /\ peerUpdates rf' = peerUpdates rf /\
  electionTimer rf' = electionTimer rf /\ commitCh rf' = commitCh rf /\
  heartbeatBroadcasts rf' = heartbeatBroadcasts rf.
Proof.
  unfold becomeFollower. cbn zeta.
  destruct (Z.eqb_spec (status rf) STATUS_FOLLOWER) as [Hs | Hs]; cbn;
    match goal with
    | |- context [currentTerm ?r =? t] =>
        destruct (Z.eqb_spec (currentTerm r) t) as [Ht | Ht]
    end; cbn in *; repeat split; auto.
Qed.

Lemma becomeFollowerIfTermIsOlderOrEqual_ge rf t :
  currentTerm rf <= t ->
  fst (becomeFollowerIfTermIsOlderOrEqual rf t) = fst (becomeFollower rf t).
Proof.
  intros H. unfold becomeFollowerIfTermIsOlderOrEqual.
  destruct (Z.leb_spec (currentTerm rf) t); [reflexivity | lia].
Qed.

Lemma becomeFollowerIfTermIsOlderOrEqual_lt rf t :
  t < currentTerm rf -> fst (becomeFollowerIfTermIsOlderOrEqual rf t) = rf.
Proof.
  intros H. unfold becomeFollowerIfTermIsOlderOrEqual.
  destruct (Z.leb_spec (currentTerm rf) t); [lia | reflexivity].
Qed.

Lemma becomeFollowerIfTermIsOlder_lt rf t :
  currentTerm rf < t ->
  fst (becomeFollowerIfTermIsOlder rf t) = fst (becomeFollower rf t).
Proof.
  intros H. unfold becomeFollowerIfTermIsOlder.
  destruct (Z.ltb_spec (currentTerm rf) t); [reflexivity | lia].
Qed.

Lemma becomeFollowerIfTermIsOlder_ge rf t :
  t <= currentTerm rf -> fst (becomeFollowerIfTermIsOlder rf t) = rf.
Proof.
  intros H. unfold becomeFollowerIfTermIsOlder.
  destruct (Z.ltb_spec (currentTerm rf) t); [lia | reflexivity].
Qed.

Lemma becomeFollower_idle rf :
  status rf = STATUS_FOLLOWER -> votedFor rf = -1 ->
  fst (becomeFollower rf (currentTerm rf)) = rf.
Proof.
  intros Hs Hv. unfold becomeFollower. rewrite Hs. cbn.
  rewrite Z.eqb_refl. cbn. destruct rf; cbn in *. subst. reflexivity.
Qed.

(** ** The commit loop *)

Lemma commitLoop_emits n : forall lo rf,
  ((0 < n)%nat -> lo + Z.of_nat n <= len (logEntries rf)) ->
  exists msgs,
    commitLoop n lo rf = Some (set_commitCh rf (commitCh rf ++ msgs)) /\
    (0 <= lo -> Forall2 (applies (logEntries rf)) (zseq lo n) msgs).
Proof.
  induction n as [| n IH]; intros lo rf Hle.
  - exists []. split.
    + cbn. rewrite app_nil_r. destruct rf; reflexivity.
    + intros _. constructor.
  - cbn [commitLoop zseq].
    assert (Hle' : lo + Z.of_nat (S n) <= len (logEntries rf))
      by (apply Hle; lia).
    clear Hle.
    destruct (Z.geb_spec lo 0) as [Hlo | Hlo].
    + destruct (index_in_range (logEntries rf) lo) as [e He]; [lia |].
      rewrite He.
      destruct (IH (lo + 1)
                  (set_commitCh rf (commitCh rf ++ [mkApplyMsg (lo + 1) (Command e)])))
        as [msgs [Hrun Hmsgs]]; [cbn; lia |].
      exists (mkApplyMsg (lo + 1) (Command e) :: msgs). split.
      * rewrite Hrun. cbn. rewrite <- app_assoc. reflexivity.
      * intros _. constructor.
        -- exists e. split; [exact He | reflexivity].
        -- apply Hmsgs. lia.
    + destruct (IH (lo + 1) rf) as [msgs [Hrun _]]; [lia |].
      exists msgs. split; [exact Hrun | intros H; lia].
Qed.

(** ** AppendEntries, case by case *)

Lemma AppendEntries_stale rf args reply :
  ae_Term args < currentTerm rf ->
  AppendEntries rf args reply =
    Some (rf, set_Term (set_Success reply false) (currentTerm rf)).
Proof.
  intros Hlt. unfold AppendEntries.
  rewrite becomeFollowerIfTermIsOlderOrEqual_lt by assumption.
  destruct (Z.ltb_spec (ae_Term args) (currentTerm rf)); [| lia].
  reflexivity.
Qed.

Lemma len_zero_nil {A} (l : list A) : len l <= 0 -> l = [].
Proof. destruct l; [reflexivity | unfold len; cbn; lia]. Qed.

Lemma AppendEntries_rejected rf args reply :
  currentTerm rf <= ae_Term args ->
  ~ consistent (logEntries rf) (ae_PrevLogIndex args) (ae_PrevLogTerm args) ->
  AppendEntries rf args reply =
    Some (resetElectionTimer (fst (becomeFollower rf (ae_Term args))),
          set_Term (set_Success reply false) (ae_Term args)).
Proof.
  intros Hle Hno. unfold AppendEntries. cbv zeta.
  rewrite becomeFollowerIfTermIsOlderOrEqual_ge by assumption.
  destruct (becomeFollower_fields rf (ae_Term args))
    as (Ht & _ & _ & _ & _ & Hlog & _).
  set (rf0 := fst (becomeFollower rf (ae_Term args))) in *.
  clearbody rf0.
  rewrite Ht. rewrite Z.ltb_irrefl. cbn [resetElectionTimer].
  change (logEntries (resetElectionTimer rf0)) with (logEntries rf0).
  rewrite Hlog.
  destruct (Z.geb_spec (ae_PrevLogIndex args) (len (logEntries rf))) as [Hk | Hk].
  { cbn. rewrite Ht. reflexivity. }
  destruct (Z.gtb_spec (ae_PrevLogTerm args) 0) as [Hp | Hp]; cbn [andb].
  2:{ exfalso. apply Hno. split; [lia | right; left; lia]. }
  destruct (Z.gtb_spec (ae_PrevLogIndex args) (-1)) as [Hi | Hi].
  2:{ exfalso. apply Hno. split; [lia | left; lia]. }
  destruct (index_in_range (logEntries rf) (ae_PrevLogIndex args)) as [e He];
    [lia |].
  rewrite He.
  destruct (Z.eqb_spec (ae_PrevLogTerm args) (Term e)) as [Heq | Hne].
  { exfalso. apply Hno. split; [lia | right; right; exists e; auto]. }
  cbn. rewrite Ht. reflexivity.
Qed.

Lemma AppendEntries_accepted rf args reply :
  currentTerm rf <= ae_Term args ->
  consistent (logEntries rf) (ae_PrevLogIndex args) (ae_PrevLogTerm args) ->
  let rf2 := accepted_state rf args in
  let ci' := if ae_LeaderCommitIndex args >? commitIndex rf
             then min (ae_LeaderCommitIndex args) (len (logEntries rf2) - 1)
             else commitIndex rf in
  exists msgs,
    AppendEntries rf args reply =
      Some (set_commitCh (set_commitIndex rf2 ci') (commitCh rf ++ msgs),
            accepted_reply rf args reply) /\
    (ae_LeaderCommitIndex args <= commitIndex rf -> msgs = []) /\
    (-1 <= commitIndex rf ->
     Forall2 (applies (logEntries rf2)) (interval_oc (commitIndex rf) ci') msgs).
Proof.
  intros Hle [Hk Hcons] rf2 ci'. subst rf2 ci'.
  unfold AppendEntries, accepted_state, accepted_reply, accepted_log.
  cbv zeta.
  rewrite becomeFollowerIfTermIsOlderOrEqual_ge by assumption.
  destruct (becomeFollower_fields rf (ae_Term args))
    as (Ht & _ & _ & _ & _ & Hlog & Hci & _ & _ & _ & _ & _ & _ & Hch & _).
  set (rf0 := fst (becomeFollower rf (ae_Term args))) in *.
  clearbody rf0.
  rewrite <- Hlog in *. rewrite <- Hci. rewrite <- Hch. clear Hlog Hci Hch.
  rewrite Ht. rewrite Z.ltb_irrefl.
  destruct rf0 as [ps self ct vf log ci la st ni mi up pu et cc hb].
  cbn in Ht, Hk, Hcons. subst ct.
  cbn [resetElectionTimer logEntries set_electionTimer commitIndex commitCh
       electionTimer peers me currentTerm votedFor lastApplied status
       nextIndex matchIndex updatingPeers peerUpdates heartbeatBroadcasts].
  destruct (Z.geb_spec (ae_PrevLogIndex args) (len log)) as [Hge | _]; [lia |].
  assert (Hmis :
    (if (ae_PrevLogTerm args >? 0) && (ae_PrevLogIndex args >? -1)
     then match index log (ae_PrevLogIndex args) with
          | Some e => Some (negb (ae_PrevLogTerm args =? Term e))
          | None => None
          end
     else Some false) = Some false).
  { destruct (Z.gtb_spec (ae_PrevLogTerm args) 0) as [Hp | Hp];
      [| reflexivity].
    destruct (Z.gtb_spec (ae_PrevLogIndex args) (-1)) as [Hi | Hi];
      [| reflexivity].
    cbn [andb].
    destruct Hcons as [Hneg | [Hnp | [e [He Heq]]]]; [lia | lia |].
    rewrite He, Heq, Z.eqb_refl. reflexivity. }
  rewrite Hmis. clear Hmis Hcons.
  set (k := ae_PrevLogIndex args) in *.
  set (entries := ae_LogEntries args) in *.
  set (lci := ae_LeaderCommitIndex args) in *.
  assert (Hcommit : forall (r : Raft) (rp : AppendEntriesReply) (la' : Z) (log' : list Log),
    r = mkRaft ps self (ae_Term args) vf log' ci la' st ni mi up pu
          (et ++ [TimerReset]) cc hb ->
    aer_Success rp = true ->
    exists msgs,
      (let reply0 := set_Term rp (currentTerm r) in
       if aer_Success reply0 && (lci >? commitIndex r)
       then
         match
           commitLoop
             (Z.to_nat
                (commitIndex
                   (set_commitIndex r (min lci (len (logEntries r) - 1))) -
                 (commitIndex r + 1) + 1))
             (commitIndex r + 1)
             (set_commitIndex r (min lci (len (logEntries r) - 1)))
         with
         | Some rf1 => Some (rf1, reply0)
         | None => None
         end
       else Some (r, reply0)) =
      Some (set_commitCh
              (set_commitIndex r
                 (if lci >? ci then min lci (len log' - 1) else ci))
              (cc ++ msgs),
            set_Term rp (ae_Term args)) /\
      (lci <= ci -> msgs = []) /\
      (-1 <= ci ->
       Forall2 (applies log')
         (interval_oc ci (if lci >? ci then min lci (len log' - 1) else ci))
         msgs)).
  { intros r rp la' log' -> Hs. cbv zeta. fields.
    rewrite Hs. cbn [andb].
    destruct (Z.gtb_spec lci ci) as [Hgt | Hngt].
    - set (ci' := min lci (len log' - 1)).
      destruct (commitLoop_emits (Z.to_nat (ci' - (ci + 1) + 1)) (ci + 1)
                  (mkRaft ps self (ae_Term args) vf log' ci' la' st ni mi up pu
                     (et ++ [TimerReset]) cc hb)) as [msgs [Hrun Hmsgs]].
      { cbn [logEntries]. intros Hpos. subst ci'. rewrite min_spec in *. lia. }
      exists msgs. split; [| split].
      + fields. rewrite Hrun. reflexivity.
      + intros Hle'. lia.
      + intros Hci. unfold interval_oc.
        replace (Z.to_nat (ci' - ci)) with (Z.to_nat (ci' - (ci + 1) + 1))
          by lia.
        apply Hmsgs. lia.
    - exists []. split; [| split].
      + rewrite app_nil_r. reflexivity.
      + reflexivity.
      + intros _. unfold interval_oc. rewrite Z.sub_diag. constructor. }
  destruct (Z.gtb_spec k (-1)) as [Hi | Hi].
  - rewrite slice_to_in_range by lia.
    cbn [orb set_logEntries set_lastApplied logEntries peers me currentTerm
         votedFor commitIndex lastApplied status nextIndex matchIndex
         updatingPeers peerUpdates electionTimer commitCh heartbeatBroadcasts].
    destruct (Z.gtb_spec (len entries) 0) as [Hn | Hn].
    + cbn [set_logEntries set_lastApplied logEntries peers me currentTerm
         votedFor commitIndex lastApplied status nextIndex matchIndex
         updatingPeers peerUpdates electionTimer commitCh heartbeatBroadcasts].
      edestruct Hcommit as [msgs [Hrun Hrest]]; [reflexivity | | ].
      2:{ exists msgs. split; [exact Hrun | exact Hrest]. }
      reflexivity.
    + assert (Hnil : entries = []) by (apply len_zero_nil; lia).
      rewrite Hnil, app_nil_r.
      edestruct Hcommit as [msgs [Hrun Hrest]]; [reflexivity | | ].
      2:{ exists msgs. split; [exact Hrun | exact Hrest]. }
      reflexivity.
  - cbn [orb].
    destruct (Z.gtb_spec (len entries) 0) as [Hn | Hn].
    + cbn [set_logEntries set_lastApplied logEntries peers me currentTerm
         votedFor commitIndex lastApplied status nextIndex matchIndex
         updatingPeers peerUpdates electionTimer commitCh heartbeatBroadcasts].
      edestruct Hcommit as [msgs [Hrun Hrest]]; [reflexivity | | ].
      2:{ exists msgs. split; [exact Hrun | exact Hrest]. }
      reflexivity.
    + assert (Hnil : entries = []) by (apply len_zero_nil; lia).
      rewrite Hnil, app_nil_r.
      edestruct Hcommit as [msgs [Hrun Hrest]]; [reflexivity | | ].
      2:{ exists msgs. split; [exact Hrun | exact Hrest]. }
      reflexivity.
Qed.

Lemma accepted_state_fields rf args :
  let rf' := accepted_state rf args in
  let log' := accepted_log (logEntries rf) (ae_PrevLogIndex args)
                (ae_LogEntries args) in
  currentTerm rf' = ae_Term args /\ votedFor rf' = -1 /\
  status rf' = STATUS_FOLLOWER /\ logEntries rf' = log' /\
  commitIndex rf' = commitIndex rf /\
  lastApplied rf' =
    (if (ae_PrevLogIndex args >? -1) || (len (ae_LogEntries args) >? 0)
     then len log' - 1 else lastApplied rf) /\
  electionTimer rf' = electionTimer rf ++ [TimerReset] /\
  commitCh rf' = commitCh rf.
Proof.
  unfold accepted_state. cbv zeta.
  destruct (becomeFollower_fields rf (ae_Term args))
    as (Ht & Hv & Hs & _ & _ & Hlog & Hci & Hla & _ & _ & _ & _ & Het & Hch & _).
  set (rf0 := fst (becomeFollower rf (ae_Term args))) in *. clearbody rf0.
  destruct ((ae_PrevLogIndex args >? -1) || (len (ae_LogEntries args) >? 0));
    fields; repeat split; auto; rewrite Het; reflexivity.
Qed.

Lemma consistent_decide log (k t : Z) :
  consistent log k t \/ ~ consistent log k t.
Proof.
  unfold consistent.
  destruct (Z.lt_ge_cases k (len log)) as [Hk | Hk]; [| right; lia].
  destruct (Z.lt_ge_cases k 0) as [Hn | Hn]; [left; lia |].
  destruct (Z.le_gt_cases t 0) as [Ht | Ht]; [left; lia |].
  destruct (index_in_range log k) as [e He]; [lia |].
  destruct (Z.eq_dec t (Term e)) as [Heq | Hne].
  - left. split; [lia |]. right. right. exists e. auto.
  - right. intros [_ [H | [H | [e' [He' Heq]]]]]; try lia.
    rewrite He in He'. injection He' as <-. contradiction.
Qed.

(** The handler never panics. *)
Lemma AppendEntries_returns rf args reply :
  exists rf' reply', AppendEntries rf args reply = Some (rf', reply').
Proof.
  destruct (Z.lt_ge_cases (ae_Term args) (currentTerm rf)) as [Hlt | Hge].
  - rewrite AppendEntries_stale by assumption. eauto.
  - destruct (consistent_decide (logEntries rf) (ae_PrevLogIndex args)
                (ae_PrevLogTerm args)) as [Hc | Hc].
    + destruct (AppendEntries_accepted rf args reply Hge Hc) as [msgs [H _]].
      rewrite H. eauto.
    + rewrite AppendEntries_rejected by assumption. eauto.
Qed.

(** [Success] tells the three cases apart. *)
Lemma AppendEntries_success rf args reply rf' reply' :
  AppendEntries rf args reply = Some (rf', reply') ->
  aer_Success reply' = true <->
  currentTerm rf <= ae_Term args /\
  consistent (logEntries rf) (ae_PrevLogIndex args) (ae_PrevLogTerm args).
Proof.
  intros Hrun.
  destruct (Z.lt_ge_cases (ae_Term args) (currentTerm rf)) as [Hlt | Hge].
  - rewrite AppendEntries_stale in Hrun by assumption.
    injection Hrun as <- <-. fields. split; [discriminate | lia].
  - destruct (consistent_decide (logEntries rf) (ae_PrevLogIndex args)
                (ae_PrevLogTerm args)) as [Hc | Hc].
    + destruct (AppendEntries_accepted rf args reply Hge Hc) as [msgs [H _]].
      rewrite H in Hrun. injection Hrun as <- <-.
      unfold accepted_reply. fields. tauto.
    + rewrite AppendEntries_rejected in Hrun by assumption.
      injection Hrun as <- <-. fields. split; [discriminate | tauto].
Qed.

(** ** Claims about AppendEntries *)

(** C1, amended.  For every call of the AppendEntries handler with
    [args.Term >= currentTerm] at entry, the handler returns and replies
    [Success = true] if and only if [args.PrevLogIndex < length(log)] and
    ([args.PrevLogIndex < 0], or [args.PrevLogTerm <= 0], or
    [args.PrevLogTerm] equals [log[args.PrevLogIndex].Term]): the terms are
    compared only when [args.PrevLogTerm] is positive. *)
Theorem AppendEntries_success_iff rf args reply :
  currentTerm rf <= ae_Term args ->
  exists rf' reply',
    AppendEntries rf args reply = Some (rf', reply') /\
    (aer_Success reply' = true <->
     ae_PrevLogIndex args < len (logEntries rf) /\
     (ae_PrevLogIndex args < 0 \/ ae_PrevLogTerm args <= 0 \/
      exists e, index (logEntries rf) (ae_PrevLogIndex args) = Some e /\
                ae_PrevLogTerm args = Term e)).
Proof.
  intros Hge.
  destruct (AppendEntries_returns rf args reply) as [rf' [reply' Hrun]].
  exists rf', reply'. split; [exact Hrun |].
  rewrite (AppendEntries_success _ _ _ _ _ Hrun). unfold consistent. tauto.
Qed.

(** What C2 asks does hold for an accepted call whose [PrevLogIndex] is not
    negative. *)
Lemma AppendEntries_truncates_from_nonneg rf args reply :
  currentTerm rf <= ae_Term args ->
  consistent (logEntries rf) (ae_PrevLogIndex args) (ae_PrevLogTerm args) ->
  0 <= ae_PrevLogIndex args ->
  truncates_and_appends rf args reply.
Proof.
  intros Hge Hc Hk.
  destruct (AppendEntries_accepted rf args reply Hge Hc) as [msgs [Hrun _]].
  destruct (accepted_state_fields rf args) as (_ & _ & _ & Hlog & _).
  unfold truncates_and_appends. eexists _, _. split; [exact Hrun |].
  unfold accepted_reply. fields. rewrite Hlog.
  unfold accepted_log, truncate_append_spec.
  destruct (Z.gtb_spec (ae_PrevLogIndex args) (-1)); [| lia].
  cbn [orb]. split; reflexivity.
Qed.


(** The lower bound that C3 assumes is kept by the handler. *)
Lemma AppendEntries_commitIndex_lower_bound rf args reply rf' reply' :
  AppendEntries rf args reply = Some (rf', reply') ->
  -1 <= commitIndex rf -> -1 <= commitIndex rf'.
Proof.
  intros Hrun Hci.
  destruct (Z.lt_ge_cases (ae_Term args) (currentTerm rf)) as [Hlt | Hge].
  { rewrite AppendEntries_stale in Hrun by assumption.
    injection Hrun as <- <-. assumption. }
  destruct (consistent_decide (logEntries rf) (ae_PrevLogIndex args)
              (ae_PrevLogTerm args)) as [Hc | Hc].
  2:{ rewrite AppendEntries_rejected in Hrun by assumption.
      destruct (becomeFollower_fields rf (ae_Term args))
        as (_ & _ & _ & _ & _ & _ & Hci' & _).
      set (rf1 := fst (becomeFollower rf (ae_Term args))) in *.
      clearbody rf1. injection Hrun as <- <-. fields. lia. }
  destruct (AppendEntries_accepted rf args reply Hge Hc) as [msgs [Hrun' _]].
  rewrite Hrun' in Hrun.
  set (rf2 := accepted_state rf args) in *. clearbody rf2.
  injection Hrun as <- <-. fields.
  destruct (Z.gtb_spec (ae_LeaderCommitIndex args) (commitIndex rf));
    [| assumption].
  rewrite min_spec. pose proof (len_nonneg (logEntries rf2)). lia.
Qed.

(** C10.  Every AppendEntries call with [args.Term >= currentTerm] leaves
    [votedFor] at NONE (-1) and [currentTerm] at [args.Term], also when
    [args.Term] equals [currentTerm] and the term does not change: a vote
    given in the current term is forgotten. *)
Theorem AppendEntries_clears_votedFor rf args reply :
  currentTerm rf <= ae_Term args ->
  exists rf' reply',
    AppendEntries rf args reply = Some (rf', reply') /\
    votedFor rf' = NONE /\ currentTerm rf' = ae_Term args.
Proof.
  intros Hge.
  destruct (consistent_decide (logEntries rf) (ae_PrevLogIndex args)
              (ae_PrevLogTerm args)) as [Hc | Hc].
  - destruct (AppendEntries_accepted rf args reply Hge Hc) as [msgs [Hrun _]].
    destruct (accepted_state_fields rf args) as (Ht & Hv & _).
    eexists _, _. split; [exact Hrun |]. fields. auto.
  - rewrite AppendEntries_rejected by assumption.
    destruct (becomeFollower_fields rf (ae_Term args)) as (Ht & Hv & _).
    eexists _, _. split; [reflexivity |]. fields. auto.
Qed.

(** ** A repeated heartbeat *)

Lemma consistent_spec_consistent log (k t : Z) :
  consistent_spec log k t -> consistent log k t.
Proof. unfold consistent_spec, consistent. tauto. Qed.

(** A call with no entries changes nothing but the timer on a follower of
    the sender's term that holds no vote and whose log ends at
    [PrevLogIndex]. *)
Lemma AppendEntries_settled rf args reply :
  status rf = STATUS_FOLLOWER -> votedFor rf = -1 ->
  ae_Term args = currentTerm rf ->
  consistent (logEntries rf) (ae_PrevLogIndex args) (ae_PrevLogTerm args) ->
  ae_LogEntries args = [] ->
  ae_LeaderCommitIndex args <= commitIndex rf ->
  (-1 < ae_PrevLogIndex args ->
   len (logEntries rf) = ae_PrevLogIndex args + 1 /\
   lastApplied rf = ae_PrevLogIndex args) ->
  AppendEntries rf args reply =
    Some (resetElectionTimer rf, accepted_reply rf args reply).
Proof.
  intros Hs Hv Ht Hc Hnil Hlci Hend.
  destruct (AppendEntries_accepted rf args reply) as [msgs [Hrun [Hmsgs _]]];
    [lia | assumption |].
  rewrite Hrun, (Hmsgs Hlci), app_nil_r. f_equal. f_equal.
  destruct (Z.gtb_spec (ae_LeaderCommitIndex args) (commitIndex rf)); [lia |].
  unfold accepted_state, accepted_log. cbv zeta.
  rewrite Ht, becomeFollower_idle by assumption.
  rewrite Hnil, app_nil_r. change (len (@nil Log) >? 0) with false.
  rewrite orb_false_r.
  destruct (Z.gtb_spec (ae_PrevLogIndex args) (-1)) as [Hk | Hk].
  - destruct (Hend Hk) as [Hlen Hla].
    rewrite firstn_all2 by (unfold len in Hlen; lia).
    rewrite Hlen.
    replace (ae_PrevLogIndex args + 1 - 1) with (lastApplied rf) by lia.
    destruct rf; reflexivity.
  - destruct rf; reflexivity.
Qed.

(** On a follower of the sender's term whose log matches at
    [PrevLogIndex = k], a call with no entries and nothing new to commit is
    a no-op beyond the timer exactly when the follower holds no vote and,
    for [k >= 0], its log ends at [k] with [lastApplied = k]: otherwise the
    call clears the vote, or cuts the entries after [k] and sets
    [lastApplied] to [k]. *)
Lemma heartbeat_is_noop_iff rf args reply :
  status rf = STATUS_FOLLOWER ->
  ae_Term args = currentTerm rf ->
  consistent_spec (logEntries rf) (ae_PrevLogIndex args) (ae_PrevLogTerm args) ->
  ae_LogEntries args = [] ->
  ae_LeaderCommitIndex args <= commitIndex rf ->
  heartbeat_is_noop rf args reply <->
  votedFor rf = NONE /\
  (-1 < ae_PrevLogIndex args ->
   len (logEntries rf) = ae_PrevLogIndex args + 1 /\
   lastApplied rf = ae_PrevLogIndex args).
Proof.
  intros Hs Ht Hspec Hnil Hlci.
  apply consistent_spec_consistent in Hspec.
  unfold heartbeat_is_noop, NONE. split.
  - intros (rf' & reply' & Hrun & Hlog' & _ & Hv' & _ & Hla' & _).
    destruct (AppendEntries_accepted rf args reply) as [msgs [Hrun' _]];
      [lia | assumption |].
    rewrite Hrun' in Hrun. clear Hrun'.
    destruct (accepted_state_fields rf args)
      as (_ & Hv & _ & Hlog & _ & Hla & _).
    assert (Hfields :
      votedFor rf' = -1 /\
      logEntries rf' = accepted_log (logEntries rf) (ae_PrevLogIndex args)
                         (ae_LogEntries args) /\
      lastApplied rf' =
        (if (ae_PrevLogIndex args >? -1) || (len (ae_LogEntries args) >? 0)
         then len (accepted_log (logEntries rf) (ae_PrevLogIndex args)
                     (ae_LogEntries args)) - 1
         else lastApplied rf)).
    { set (rf2 := accepted_state rf args) in *. clearbody rf2.
      injection Hrun as <- _. fields. auto. }
    clear Hrun. destruct Hfields as (Hv2 & Hlog2 & Hla2).
    split; [congruence |].
    intros Hk. destruct Hspec as [Hlt _].
    rewrite Hlog' in Hlog2. rewrite Hla' in Hla2.
    unfold accepted_log in Hlog2, Hla2. rewrite Hnil, app_nil_r in Hlog2, Hla2.
    destruct (Z.gtb_spec (ae_PrevLogIndex args) (-1)); [| lia].
    cbn [orb] in Hla2.
    assert (Hlen : len (take (Z.to_nat (ae_PrevLogIndex args + 1)) (logEntries rf))
                   = ae_PrevLogIndex args + 1) by (apply len_take; lia).
    rewrite Hlen in Hla2. rewrite <- Hlog2 in Hlen. lia.
  - intros [Hv Hend].
    rewrite (AppendEntries_settled rf args reply) by assumption.
    eexists _, _. split; [reflexivity |]. fields. repeat split; reflexivity.
Qed.

(** C9, amended.  Let [rf] be the state that an AppendEntries call left on
    a peer, and let the same call be sent again: it carries the peer's
    current term, [PrevLogIndex = k] with a [PrevLogTerm] that matches the
    peer's log at [k], no entries, and a [LeaderCommitIndex] that does not
    exceed the peer's [commitIndex].  Then the repeated call is accepted and
    the state it leaves is [rf] with the election timer reset once more: the
    log, [currentTerm], [votedFor], [commitIndex], [lastApplied] and the
    role are unchanged and nothing is sent on the commit stream.  On a
    follower that no such call has reached the call need not be a no-op:
    see [heartbeat_is_noop_iff]. *)
Theorem AppendEntries_repeated_heartbeat_noop rf0 reply0 rf reply1 args reply :
  AppendEntries rf0 args reply0 = Some (rf, reply1) ->
  ae_Term args = currentTerm rf ->
  consistent_spec (logEntries rf) (ae_PrevLogIndex args) (ae_PrevLogTerm args) ->
  ae_LogEntries args = [] ->
  ae_LeaderCommitIndex args <= commitIndex rf ->
  exists rf' reply',
    AppendEntries rf args reply = Some (rf', reply') /\
    aer_Success reply' = true /\
    rf' = resetElectionTimer rf /\
    logEntries rf' = logEntries rf /\ currentTerm rf' = currentTerm rf /\
    votedFor rf' = votedFor rf /\ commitIndex rf' = commitIndex rf /\
    lastApplied rf' = lastApplied rf /\ status rf' = status rf /\
    commitCh rf' = commitCh rf /\
    electionTimer rf' = electionTimer rf ++ [TimerReset].
Proof.
  intros Hprev Ht Hspec Hnil Hlci.
  apply consistent_spec_consistent in Hspec.
  assert (Hsettled :
    status rf = STATUS_FOLLOWER /\ votedFor rf = -1 /\
    (-1 < ae_PrevLogIndex args ->
     len (logEntries rf) = ae_PrevLogIndex args + 1 /\
     lastApplied rf = ae_PrevLogIndex args)).
  { destruct (Z.lt_ge_cases (ae_Term args) (currentTerm rf0)) as [Hlt | Hge].
    { rewrite AppendEntries_stale in Hprev by assumption.
      injection Hprev as <- <-. lia. }
    destruct (consistent_decide (logEntries rf0) (ae_PrevLogIndex args)
                (ae_PrevLogTerm args)) as [Hc | Hc].
    2:{ rewrite AppendEntries_rejected in Hprev by assumption.
        destruct (becomeFollower_fields rf0 (ae_Term args))
          as (_ & _ & _ & _ & _ & Hlog & _).
        set (rf1 := fst (becomeFollower rf0 (ae_Term args))) in *.
        clearbody rf1.
        injection Hprev as <- <-.
        fields. rewrite Hlog in Hspec. contradiction. }
    destruct (AppendEntries_accepted rf0 args reply0 Hge Hc)
      as [msgs [Hrun _]].
    rewrite Hrun in Hprev.
    destruct (accepted_state_fields rf0 args)
      as (_ & Hv & Hs & Hlog & _ & Hla & _).
    set (rf1 := accepted_state rf0 args) in *. clearbody rf1.
    injection Hprev as <- <-.
    fields. rewrite Hlog, Hla. repeat split; auto.
    - unfold accepted_log. rewrite Hnil, app_nil_r.
      destruct (Z.gtb_spec (ae_PrevLogIndex args) (-1)); [| lia].
      destruct Hc as [Hk _]. apply len_take. lia.
    - unfold accepted_log. rewrite Hnil, app_nil_r.
      destruct (Z.gtb_spec (ae_PrevLogIndex args) (-1)); [| lia].
      cbn [orb]. destruct Hc as [Hk _]. rewrite len_take by lia. lia. }
  destruct Hsettled as (Hs & Hv & Hend).
  rewrite (AppendEntries_settled rf args reply) by assumption.
  eexists _, _. split; [reflexivity |].
  unfold accepted_reply. fields. repeat split; reflexivity.
Qed.

(** ** RequestVote *)

Lemma selfLastLogTerm_lastLogTerm log :
  (if len log >? 0
   then match index log (len log - 1) with
        | Some e => Some (Term e)
        | None => None
        end
   else Some 0) = Some (lastLogTerm log).
Proof.
  unfold lastLogTerm. destruct (Z.gtb_spec (len log) 0) as [Hpos | Hzero].
  - destruct (index_in_range log (len log - 1)) as [e He]; [lia |].
    rewrite He. reflexivity.
  - destruct (index log (len log - 1)) as [e |] eqn:He; [| reflexivity].
    apply index_Some_range in He. lia.
Qed.

(** The handler never panics. *)
Lemma RequestVote_returns rf args reply :
  exists rf' reply', RequestVote rf args reply = Some (rf', reply').
Proof.
  unfold RequestVote. cbv zeta.
  set (rf1 := fst (becomeFollowerIfTermIsOlder rf (rv_Term args))).
  destruct (votedFor rf1 =? -1); [| eauto].
  rewrite selfLastLogTerm_lastLogTerm.
  destruct (lastLogTerm (logEntries rf1) <? rv_LastLogTerm args); [eauto |].
  destruct (lastLogTerm (logEntries rf1) =? rv_LastLogTerm args); [| eauto].
  destruct (len (logEntries rf1) <=? int_add (rv_LastLogIndex args) 1); eauto.
Qed.

Lemma becomeFollowerIfTermIsOlder_logEntries rf t :
  logEntries (fst (becomeFollowerIfTermIsOlder rf t)) = logEntries rf.
Proof.
  unfold becomeFollowerIfTermIsOlder.
  destruct (currentTerm rf <? t); [| reflexivity].
  apply (becomeFollower_fields rf t).
Qed.

Lemma becomeFollowerIfTermIsOlder_electionTimer rf t :
  electionTimer (fst (becomeFollowerIfTermIsOlder rf t)) = electionTimer rf.
Proof.
  unfold becomeFollowerIfTermIsOlder.
  destruct (currentTerm rf <? t); [| reflexivity].
  apply (becomeFollower_fields rf t).
Qed.

(** The decision of the handler, and what a granted vote leaves. *)
Lemma RequestVote_decision rf args reply :
  exists rf' reply',
    RequestVote rf args reply = Some (rf', reply') /\
    (rvr_VoteGranted reply' = true <->
     votedFor (fst (becomeFollowerIfTermIsOlder rf (rv_Term args))) = NONE /\
     (rv_LastLogTerm args > lastLogTerm (logEntries rf) \/
      (rv_LastLogTerm args = lastLogTerm (logEntries rf) /\
       int_add (rv_LastLogIndex args) 1 >= len (logEntries rf)))) /\
    (rvr_VoteGranted reply' = true ->
     votedFor rf' = rv_CandidateId args /\
     electionTimer rf' = electionTimer rf ++ [TimerReset]).
Proof.
  unfold RequestVote. cbv zeta.
  pose proof (becomeFollowerIfTermIsOlder_logEntries rf (rv_Term args)) as Hlog.
  pose proof (becomeFollowerIfTermIsOlder_electionTimer rf (rv_Term args))
    as Het.
  set (rf1 := fst (becomeFollowerIfTermIsOlder rf (rv_Term args))) in *.
  clearbody rf1. rewrite <- Hlog, <- Het. unfold NONE.
  destruct (Z.eqb_spec (votedFor rf1) (-1)) as [Hv | Hv].
  2:{ eexists _, _. split; [reflexivity |]. fields.
      split; [split; [discriminate | tauto] | discriminate]. }
  rewrite selfLastLogTerm_lastLogTerm.
  destruct (Z.ltb_spec (lastLogTerm (logEntries rf1)) (rv_LastLogTerm args))
    as [Hlt | Hge].
  { eexists _, _. split; [reflexivity |]. fields.
    split; [split; [intros _; split; [assumption | left; lia] | reflexivity]
           | auto]. }
  destruct (Z.eqb_spec (lastLogTerm (logEntries rf1)) (rv_LastLogTerm args))
    as [Heq | Hne].
  2:{ eexists _, _. split; [reflexivity |]. fields.
      split; [split; [discriminate | intros [_ [H | [H _]]]; lia]
             | discriminate]. }
  destruct (Z.leb_spec (len (logEntries rf1))
              (int_add (rv_LastLogIndex args) 1)) as [Hlen | Hlen].
  - eexists _, _. split; [reflexivity |]. fields.
    split; [split; [intros _; split; [assumption | right; lia] | reflexivity]
           | auto].
  - eexists _, _. split; [reflexivity |]. fields.
    split; [split; [discriminate | intros [_ [H | [_ H]]]; lia]
           | discriminate].
Qed.

(** C4.  For every call of the RequestVote handler: after the step-down
    for a higher term, the vote is granted exactly when [votedFor] is NONE
    and either [args.LastLogTerm] is greater than the peer's last log term,
    or the two are equal and [args.LastLogIndex + 1 >= len(log)], the sum
    being Go's [int] addition (the sum in the integers unless
    [args.LastLogIndex] is the largest [int]); when the vote is granted,
    [votedFor] is [args.CandidateId] and the election timer has been
    reset. *)
Theorem RequestVote_grants_iff rf args reply :
  exists rf' reply',
    RequestVote rf args reply = Some (rf', reply') /\
    (rvr_VoteGranted reply' = true <->
     votedFor (fst (becomeFollowerIfTermIsOlder rf (rv_Term args))) = NONE /\
     (rv_LastLogTerm args > lastLogTerm (logEntries rf) \/
      (rv_LastLogTerm args = lastLogTerm (logEntries rf) /\
       int_add (rv_LastLogIndex args) 1 >= len (logEntries rf)))) /\
    (rvr_VoteGranted reply' = true ->
     votedFor rf' = rv_CandidateId args /\
     electionTimer rf' = electionTimer rf ++ [TimerReset]) /\
    (is_int (rv_LastLogIndex args + 1) ->
     int_add (rv_LastLogIndex args) 1 = rv_LastLogIndex args + 1).
Proof.
  destruct (RequestVote_decision rf args reply)
    as (rf' & reply' & Hrun & Hiff & Hgrant).
  exists rf', reply'. split; [exact Hrun |].
  split; [exact Hiff |]. split; [exact Hgrant |].
  apply int_add_exact.
Qed.

(** ** Start *)



(** ** The reply half of the replication loop *)

Lemma countLoop_counts entry m : forall n k acc,
  (k + n <= length m)%nat ->
  countLoop (seq k n) m entry acc =
    Some (acc + count_ge entry (take n (drop k m))).
Proof.
  induction n as [| n IH]; intros k acc Hle.
  - rewrite firstn_0. cbn. f_equal. lia.
  - cbn [seq countLoop].
    destruct (lookup_lt_is_Some_2 m k) as [v Hv]; [lia |].
    rewrite index_lookup by lia. rewrite Nat2Z.id, Hv.
    rewrite IH by lia.
    rewrite (drop_S m v k Hv). cbn [take count_ge].
    f_equal. destruct (v >=? entry); lia.
Qed.

Lemma countLoop_all entry (m : list Z) (n : nat) :
  length m = n ->
  countLoop (seq 0 n) m entry 0 = Some (count_ge entry m).
Proof.
  intros Hn. rewrite countLoop_counts by lia.
  rewrite drop_0, firstn_all2 by lia. reflexivity.
Qed.

(** C6.  In [updatePeer], on a reply that came through with
    [Success = true] while the peer is still the leader (set up as
    [leader_wf] says, [cmd.Entry] naming an entry of its log): the leader
    sets [nextIndex[p]] and [matchIndex[p]] to [reply.NextIndex].  When
    [reply.NextIndex >= cmd.Entry] the call returns, and [commitIndex]
    becomes [cmd.Entry], with [ApplyMsg{Index: cmd.Entry+1, Command:
    log[cmd.Entry].Command}] sent on the commit stream, if the number of
    peers [q] with [matchIndex[q] >= cmd.Entry] is at least
    [len(peers)/2 + 1] and [commitIndex = cmd.Entry - 1]; otherwise
    [commitIndex] and the commit stream are unchanged.  So [commitIndex]
    only ever moves by one.  When [reply.NextIndex < cmd.Entry] nothing is
    committed and the loop goes round again. *)
Theorem updatePeer_reply_success rf peer cmd resp :
  status (fst (becomeFollowerIfTermIsOlder rf (aer_Term resp))) = STATUS_LEADER ->
  aer_Success resp = true ->
  aer_PeerIndex resp = peer ->
  leader_wf rf ->
  0 <= peer < len (peers rf) ->
  0 <= puc_Entry cmd < len (logEntries rf) ->
  len (logEntries rf) <= MaxInt ->
  let entry := puc_Entry cmd in
  let next := aer_NextIndex resp in
  let quorum :=
    count_ge entry (<[Z.to_nat peer := next]> (matchIndex rf))
      >= len (peers rf) / 2 + 1 /\
    commitIndex rf = entry - 1 in
  (next >= entry ->
   exists rf',
     updatePeer_reply rf peer cmd true resp = Some (rf', Returned) /\
     index (nextIndex rf') peer = Some next /\
     index (matchIndex rf') peer = Some next /\
     (quorum ->
      exists e,
        index (logEntries rf) entry = Some e /\
        commitIndex rf' = entry /\ commitIndex rf' = commitIndex rf + 1 /\
        commitCh rf' = commitCh rf ++ [mkApplyMsg (entry + 1) (Command e)]) /\
     (~ quorum ->
      commitIndex rf' = commitIndex rf /\ commitCh rf' = commitCh rf)) /\
  (next < entry -> 0 <= next ->
   exists rf',
     updatePeer_reply rf peer cmd true resp = Some (rf', Retry) /\
     index (nextIndex rf') peer = Some next /\
     index (matchIndex rf') peer = Some next /\
     commitIndex rf' = commitIndex rf /\ commitCh rf' = commitCh rf).
Proof.
  intros Hstill Hsucc Hpeer (Hme & Hni & Hmi & Hup & Hpu) Hp Hentry Hmax
    entry next quorum.
  assert (Hterm : aer_Term resp <= currentTerm rf).
  { destruct (Z.le_gt_cases (aer_Term resp) (currentTerm rf)) as [H | H];
      [exact H |].
    rewrite becomeFollowerIfTermIsOlder_lt in Hstill by lia.
    destruct (becomeFollower_fields rf (aer_Term resp)) as (_ & _ & Hs & _).
    rewrite Hs in Hstill. discriminate Hstill. }
  rewrite becomeFollowerIfTermIsOlder_ge in Hstill by assumption.
  unfold updatePeer_reply, updatePeer_defer. cbv zeta.
  rewrite becomeFollowerIfTermIsOlder_ge by assumption.
  rewrite Hstill, Hsucc, Hpeer.
  cbn [negb Z.eqb STATUS_LEADER Pos.eqb andb].
  fold entry next.
  rewrite (store_in_range (nextIndex rf)) by lia. fields.
  rewrite index_store_eq by lia.
  rewrite (store_in_range (matchIndex rf)) by lia.
  assert (Hint1 : int_sub entry 1 = entry - 1).
  { apply int_sub_exact. unfold is_int, MinInt, MaxInt in *.
    subst entry. lia. }
  assert (Hint2 : int_add entry 1 = entry + 1).
  { apply int_add_exact. unfold is_int, MinInt, MaxInt in *.
    subst entry. lia. }
  split.
  - intros Hnext.
    destruct (Z.geb_spec next entry) as [_ | Hlt]; [| lia].
    rewrite (store_in_range (updatingPeers rf)) by lia.
    rewrite countLoop_all
      by (rewrite length_insert; unfold len in Hmi; lia).
    unfold getMajoritySize. fields. rewrite Hint1, Hint2.
    set (mi' := <[Z.to_nat peer := next]> (matchIndex rf)) in *.
    set (up' := <[Z.to_nat peer := false]> (updatingPeers rf)).
    assert (Hup' : store up' peer false = Some (<[Z.to_nat peer := false]> up')).
    { apply store_in_range. subst up'. rewrite len_store. lia. }
    destruct (Z.geb_spec (count_ge entry mi') (len (peers rf) / 2 + 1))
      as [Hmaj | Hmin].
    + destruct (Z.eqb_spec (commitIndex rf) (entry - 1)) as [Hci | Hci].
      * destruct (index_in_range (logEntries rf) entry) as [e He];
          [subst entry; lia |].
        rewrite He. fields. rewrite Hup'.
        eexists. split; [reflexivity |]. fields.
        split; [apply index_store_eq; lia |].
        split; [apply index_store_eq; lia |].
        split.
        -- intros _. exists e. repeat split; auto. lia.
        -- intros Hnq. exfalso. apply Hnq. split; [lia | exact Hci].
      * fields. rewrite Hup'.
        eexists. split; [reflexivity |]. fields.
        split; [apply index_store_eq; lia |].
        split; [apply index_store_eq; lia |].
        split; [intros [_ Hq]; contradiction | auto].
    + fields. rewrite Hup'.
      eexists. split; [reflexivity |]. fields.
      split; [apply index_store_eq; lia |].
      split; [apply index_store_eq; lia |].
      split; [intros [Hq _]; lia | auto].
  - intros Hnext Hpos.
    destruct (Z.geb_spec next entry) as [Hge | _]; [lia |].
    fields. rewrite index_store_eq by lia.
    destruct (index_in_range (logEntries rf) next) as [e He];
      [subst entry; lia |].
    rewrite He.
    eexists. split; [reflexivity |]. fields.
    split; [apply index_store_eq; lia |].
    split; [apply index_store_eq; lia |]. auto.
Qed.

(** ** The current term *)

Lemma AppendEntries_currentTerm rf args reply rf' reply' :
  AppendEntries rf args reply = Some (rf', reply') ->
  currentTerm rf' = Z.max (currentTerm rf) (ae_Term args).
Proof.
  intros Hrun.
  destruct (Z.lt_ge_cases (ae_Term args) (currentTerm rf)) as [Hlt | Hge].
  { rewrite AppendEntries_stale in Hrun by assumption.
    injection Hrun as <- <-. lia. }
  destruct (consistent_decide (logEntries rf) (ae_PrevLogIndex args)
              (ae_PrevLogTerm args)) as [Hc | Hc].
  - destruct (AppendEntries_accepted rf args reply Hge Hc) as [msgs [Hrun' _]].
    destruct (accepted_state_fields rf args) as (Ht & _).
    rewrite Hrun' in Hrun.
    set (rf2 := accepted_state rf args) in *. clearbody rf2.
    injection Hrun as <- <-. fields. clear Hrun'. lia.
  - rewrite AppendEntries_rejected in Hrun by assumption.
    destruct (becomeFollower_fields rf (ae_Term args)) as (Ht & _).
    set (rf1 := fst (becomeFollower rf (ae_Term args))) in *. clearbody rf1.
    injection Hrun as <- <-. fields. lia.
Qed.

Lemma RequestVote_currentTerm rf args reply rf' reply' :
  RequestVote rf args reply = Some (rf', reply') ->
  currentTerm rf' = Z.max (currentTerm rf) (rv_Term args).
Proof.
  unfold RequestVote. cbv zeta.
  assert (Ht : currentTerm (fst (becomeFollowerIfTermIsOlder rf (rv_Term args)))
               = Z.max (currentTerm rf) (rv_Term args)).
  { destruct (Z.lt_ge_cases (currentTerm rf) (rv_Term args)) as [Hlt | Hge].
    - rewrite becomeFollowerIfTermIsOlder_lt by assumption.
      destruct (becomeFollower_fields rf (rv_Term args)) as (Ht & _).
      rewrite Ht. lia.
    - rewrite becomeFollowerIfTermIsOlder_ge by lia. lia. }
  set (rf1 := fst (becomeFollowerIfTermIsOlder rf (rv_Term args))) in *.
  clearbody rf1. rewrite <- Ht.
  destruct (votedFor rf1 =? -1).
  2:{ intros H. injection H as <- <-. reflexivity. }
  rewrite selfLastLogTerm_lastLogTerm.
  destruct (lastLogTerm (logEntries rf1) <? rv_LastLogTerm args).
  { intros H. injection H as <- <-. reflexivity. }
  destruct (lastLogTerm (logEntries rf1) =? rv_LastLogTerm args).
  2:{ intros H. injection H as <- <-. reflexivity. }
  destruct (len (logEntries rf1) <=? int_add (rv_LastLogIndex args) 1);
    intros H; injection H as <- <-; reflexivity.
Qed.

Lemma BecomeLeader_currentTerm rf rf' :
  BecomeLeader rf = Some rf' -> currentTerm rf' = currentTerm rf.
Proof.
  unfold BecomeLeader.
  destruct rf as [ps self ct vf log ci la st ni mi up pu et cc hb].
  match goal with |- context [negb ?c] => destruct (negb c) end;
    run_updates;
    match goal with
    | |- context [if ?c then Some _ else panic] => destruct c
    end; intros H; try discriminate H; injection H as <-; reflexivity.
Qed.

Lemma Start_currentTerm rf command rf' r :
  Start rf command = Some (rf', r) -> currentTerm rf' = currentTerm rf.
Proof.
  unfold Start, enqueueEntryBroadcast.
  destruct rf as [ps self ct vf log ci la st ni mi up pu et cc hb].
  run_updates.
  destruct (negb (st =? STATUS_LEADER)).
  { intros H. injection H as <- <-. reflexivity. }
  repeat match goal with
         | |- context [match ?x with Some _ => _ | None => None end] =>
             lazymatch x with
             | context [match _ with Some _ => _ | None => _ end] => fail
             | _ => destruct x; [| discriminate]
             end
         end.
  intros H. injection H as <- <-. reflexivity.
Qed.

(** C7, amended.  [currentTerm] does not decrease under the AppendEntries
    handler, the RequestVote handler, [BecomeLeader],
    [becomeFollowerIfTermIsOlder], [becomeFollowerIfTermIsOlderOrEqual]
    and [Start]; under [becomeFollower(newTerm)] it does not decrease when
    [newTerm >= currentTerm], which is what each of its callers has
    checked; under [BecomeCandidate] it grows by one as long as it is below
    the largest [int]. *)
Theorem currentTerm_never_decreases rf :
  (forall args reply,
     exists rf' reply',
       AppendEntries rf args reply = Some (rf', reply') /\
       currentTerm rf <= currentTerm rf') /\
  (forall args reply,
     exists rf' reply',
       RequestVote rf args reply = Some (rf', reply') /\
       currentTerm rf <= currentTerm rf') /\
  (is_int (currentTerm rf) -> currentTerm rf < MaxInt ->
   currentTerm (BecomeCandidate rf) = currentTerm rf + 1) /\
  (forall rf', BecomeLeader rf = Some rf' -> currentTerm rf <= currentTerm rf') /\
  (forall newTerm,
     currentTerm rf <= newTerm ->
     currentTerm rf <= currentTerm (fst (becomeFollower rf newTerm))) /\
  (forall term,
     currentTerm rf <= currentTerm (fst (becomeFollowerIfTermIsOlder rf term))) /\
  (forall term,
     currentTerm rf
       <= currentTerm (fst (becomeFollowerIfTermIsOlderOrEqual rf term))) /\
  (forall command rf' r,
     Start rf command = Some (rf', r) -> currentTerm rf <= currentTerm rf').
Proof.
  repeat split.
  - intros args reply.
    destruct (AppendEntries_returns rf args reply) as (rf' & reply' & Hrun).
    exists rf', reply'. split; [exact Hrun |].
    rewrite (AppendEntries_currentTerm _ _ _ _ _ Hrun). lia.
  - intros args reply.
    destruct (RequestVote_returns rf args reply) as (rf' & reply' & Hrun).
    exists rf', reply'. split; [exact Hrun |].
    rewrite (RequestVote_currentTerm _ _ _ _ _ Hrun). lia.
  - intros Hint Hlt. unfold BecomeCandidate. fields.
    apply int_add_exact. unfold is_int, MinInt, MaxInt in *. lia.
  - intros rf' Hrun. rewrite (BecomeLeader_currentTerm _ _ Hrun). lia.
  - intros newTerm Hle.
    destruct (becomeFollower_fields rf newTerm) as (Ht & _). rewrite Ht. lia.
  - intros term.
    destruct (Z.lt_ge_cases (currentTerm rf) term) as [Hlt | Hge].
    + rewrite becomeFollowerIfTermIsOlder_lt by assumption.
      destruct (becomeFollower_fields rf term) as (Ht & _). rewrite Ht. lia.
    + rewrite becomeFollowerIfTermIsOlder_ge by lia. lia.
  - intros term.
    destruct (Z.le_gt_cases (currentTerm rf) term) as [Hle | Hgt].
    + rewrite becomeFollowerIfTermIsOlderOrEqual_ge by assumption.
      destruct (becomeFollower_fields rf term) as (Ht & _). rewrite Ht. lia.
    + rewrite becomeFollowerIfTermIsOlderOrEqual_lt by lia. lia.
  - intros command rf' r Hrun. rewrite (Start_currentTerm _ _ _ _ Hrun). lia.
Qed.

(** ** What [Make] and [BecomeLeader] establish *)

Lemma length_filled {A} (n : nat) (f : Z -> A) : length (filled n f) = n.
Proof. unfold filled. rewrite length_map, length_seq. reflexivity. Qed.

Lemma Make_fields (ends : list ClientEnd) (self : Z) :
  let rf := @Make Cmd ends self in
  status rf = STATUS_FOLLOWER /\ votedFor rf = NONE /\ logEntries rf = [] /\
  commitIndex rf = -1 /\ lastApplied rf = -1 /\
  len (updatingPeers rf) = len (peers rf) /\
  len (peerUpdates rf) = len (peers rf).
Proof.
  cbv zeta. unfold Make, len. cbn. rewrite !length_filled.
  repeat split; reflexivity.
Qed.

Lemma BecomeLeader_leader_wf rf rf' :
  BecomeLeader rf = Some rf' ->
  0 <= me rf < len (peers rf) ->
  len (updatingPeers rf) = len (peers rf) ->
  len (peerUpdates rf) = len (peers rf) ->
  status rf' = STATUS_LEADER /\ leader_wf rf'.
Proof.
  unfold BecomeLeader, leader_wf.
  destruct rf as [ps self ct vf log ci la st ni mi up pu et cc hb].
  read_fields. intros Hrun Hme Hup Hpu. revert Hrun.
  destruct (Z.eqb_spec st STATUS_LEADER) as [Heq | Hne]; cbn [negb];
    run_updates;
    (destruct (Z.leb_spec (Z.of_nat (length ps)) (len up)) as [_ | Hlt];
     [| unfold len in *; lia]);
    intros Hrun; injection Hrun as <-; read_fields;
    unfold len in *; rewrite ?length_app, ?length_filled, ?length_drop;
    repeat split; auto; lia.
Qed.

(** The reply half of [updatePeer] keeps the lower bound of [commitIndex]
    that C3 assumes: it commits only an entry of the log. *)
Lemma updatePeer_reply_commitIndex_lower_bound rf peer cmd ok resp rf' flow :
  updatePeer_reply rf peer cmd ok resp = Some (rf', flow) ->
  -1 <= commitIndex rf -> -1 <= commitIndex rf'.
Proof.
  unfold updatePeer_reply, updatePeer_defer.
  assert (Hci : commitIndex (if ok then fst (becomeFollowerIfTermIsOlder rf
                                               (aer_Term resp)) else rf)
                = commitIndex rf).
  { destruct ok; [| reflexivity].
    unfold becomeFollowerIfTermIsOlder.
    destruct (currentTerm rf <? aer_Term resp); [| reflexivity].
    apply (becomeFollower_fields rf (aer_Term resp)). }
  set (rf1 := if ok then fst (becomeFollowerIfTermIsOlder rf (aer_Term resp))
              else rf) in *.
  clearbody rf1. rewrite <- Hci. clear Hci rf.
  destruct rf1 as [ps self ct vf log ci la st ni mi up pu et cc hb].
  destruct cmd as [entry term]. destruct resp as [rterm success pindex next].
  run_updates. cbn [aer_Term aer_Success aer_PeerIndex aer_NextIndex].
  intros Hrun Hlow. revert Hrun.
  repeat match goal with
         | |- context [if ?c then _ else _] =>
             lazymatch c with
             | context [if _ then _ else _] => fail
             | context [match _ with _ => _ end] => fail
             | _ => destruct c eqn:?
             end
         | |- context [match ?x with Some _ => _ | None => _ end] =>
             lazymatch x with
             | context [if _ then _ else _] => fail
             | context [match _ with _ => _ end] => fail
             | _ => destruct x eqn:?
             end
         end;
    try discriminate;
    intros Hrun; injection Hrun as <- <-; cbn [commitIndex];
    try assumption.
  match goal with
  | H : index log entry = Some _ |- _ =>
      apply index_Some_range in H; lia
  end.
Qed.

End PeerFacts.

(** * The scenarios, run *)

(** ** AppendEntries: the consistency check *)

(** C1 fails: a follower whose only entry has term 1 accepts a call with
    [PrevLogIndex = 0] and [PrevLogTerm = 0], though the terms differ. *)
Lemma AppendEntries_accepts_nonpositive_PrevLogTerm :
  currentTerm (follower 1 (-1) [mkLog 7 1 0] (-1)) <= ae_Term (heartbeat 1 0 0 (-1)) /\
  ~ success_iff_spec_check (follower 1 (-1) [mkLog 7 1 0] (-1))
      (heartbeat 1 0 0 (-1)) blank_reply.
Proof.
  split; [vm_compute; discriminate |].
  intros (rf' & reply' & Hrun & Hiff).
  vm_compute in Hrun. injection Hrun as <- <-.
  destruct Hiff as [Hyes _].
  destruct (Hyes eq_refl) as [_ [Hneg | (e & He & Ht)]].
  - vm_compute in Hneg. discriminate Hneg.
  - vm_compute in He. injection He as <-. discriminate Ht.
Qed.

(** The amended C1 at the same call. *)
Lemma AppendEntries_success_iff_witness :
  currentTerm (follower 1 (-1) [mkLog 7 1 0] (-1)) <= ae_Term (heartbeat 1 0 0 (-1)) /\
  exists rf' reply',
    AppendEntries (follower 1 (-1) [mkLog 7 1 0] (-1)) (heartbeat 1 0 0 (-1))
      blank_reply = Some (rf', reply') /\
    (aer_Success reply' = true <->
     ae_PrevLogIndex (heartbeat 1 0 0 (-1))
       < len (logEntries (follower 1 (-1) [mkLog 7 1 0] (-1))) /\
     (ae_PrevLogIndex (heartbeat 1 0 0 (-1)) < 0 \/
      ae_PrevLogTerm (heartbeat 1 0 0 (-1)) <= 0 \/
      exists e,
        index (logEntries (follower 1 (-1) [mkLog 7 1 0] (-1)))
          (ae_PrevLogIndex (heartbeat 1 0 0 (-1))) = Some e /\
        ae_PrevLogTerm (heartbeat 1 0 0 (-1)) = Term e)).
Proof.
  split; [vm_compute; discriminate |].
  apply (AppendEntries_success_iff (follower 1 (-1) [mkLog 7 1 0] (-1))
           (heartbeat 1 0 0 (-1)) blank_reply).
  vm_compute; discriminate.
Defined.

(** ** AppendEntries: the log of an accepted call *)

(** C2, on a failing input.  A follower that holds one entry of term 1 is
    sent, by the leader of term 2 whose log was empty, that leader's first
    entry: [PrevLogIndex = -1], one entry.  The handler accepts and appends
    the entry after the one it had; the spec's log would hold the new entry
    only.  On an empty log, a call with [PrevLogIndex = -1] and no entries
    leaves [NextIndex] as it came (0), not the last index (-1). *)
Theorem AppendEntries_keeps_log_below_zero :
  (exists rf' reply',
     AppendEntries (follower 1 (-1) [mkLog 7 1 0] (-1))
       (mkAppendEntriesArgs 2 0 (-1) 0 [mkLog 5 2 0] (-1)) blank_reply
       = Some (rf', reply') /\
     aer_Success reply' = true /\
     logEntries rf' = [mkLog 7 1 0; mkLog 5 2 0] /\
     truncate_append_spec [mkLog 7 1 0] (-1) [mkLog 5 2 0] = [mkLog 5 2 0]) /\
  ~ truncates_and_appends (follower 1 (-1) [mkLog 7 1 0] (-1))
      (mkAppendEntriesArgs 2 0 (-1) 0 [mkLog 5 2 0] (-1)) blank_reply /\
  (exists rf' reply',
     AppendEntries (follower 1 (-1) [] (-1)) (heartbeat 1 (-1) (-1) (-1))
       blank_reply = Some (rf', reply') /\
     aer_Success reply' = true /\
     aer_NextIndex reply' = 0 /\ len (logEntries rf') - 1 = -1).
Proof.
  split; [| split].
  - eexists _, _. split; [vm_compute; reflexivity |].
    repeat split.
  - intros (rf' & reply' & Hrun & Hlog & _).
    vm_compute in Hrun. injection Hrun as <- <-.
    vm_compute in Hlog. discriminate Hlog.
  - eexists _, _. split; [vm_compute; reflexivity |].
    repeat split.
Qed.

(** ** AppendEntries: the commit step *)


(** The same call, run: entries 0 and 1 are applied, as messages 1 and 2. *)
Example AppendEntries_commit_run :
  exists rf' reply',
    AppendEntries (follower 1 (-1) log789 (-1)) (heartbeat 1 2 1 1) blank_reply
      = Some (rf', reply') /\
    commitIndex rf' = 1 /\
    commitCh rf' = [mkApplyMsg 1 7; mkApplyMsg 2 8].
Proof. eexists _, _. split; [vm_compute; reflexivity |]. split; reflexivity. Qed.

(** ** AppendEntries: the indices *)

(** C8, on two failing inputs.  A follower in term 2 holds three entries,
    none committed, the last two never replicated by the leader that wrote
    them.  The heartbeat of the leader of term 2, whose [nextIndex] for this
    follower is 0, cuts the log to its first entry: [lastApplied] goes from
    2 to 0.  With the three entries committed and a leader commit index of
    5, the same cut takes [commitIndex] from 2 to 0. *)
Theorem AppendEntries_lowers_indices :
  (exists rf' reply',
     AppendEntries (follower 2 (-1) log789 (-1)) (heartbeat 2 0 1 (-1))
       blank_reply = Some (rf', reply') /\
     lastApplied (follower 2 (-1) log789 (-1)) = 2 /\
     lastApplied rf' = 0) /\
  (exists rf' reply',
     AppendEntries (follower 2 (-1) log789 2) (heartbeat 2 0 1 5)
       blank_reply = Some (rf', reply') /\
     commitIndex (follower 2 (-1) log789 2) = 2 /\
     commitIndex rf' = 0).
Proof.
  split; eexists _, _; (split; [vm_compute; reflexivity |]); split; reflexivity.
Qed.

(** ** AppendEntries: a repeated heartbeat *)

(** C9 as the spec states it fails at a follower of term 1 that voted for
    peer 0 and holds three entries, on the first heartbeat of the leader of
    term 1 with [PrevLogIndex = 1]: the call carries the follower's term,
    its [PrevLogTerm] matches the log at 1, it has no entries and commits
    nothing new; yet it takes back the vote, cuts the third entry and
    lowers [lastApplied] from 2 to 1. *)
Lemma AppendEntries_first_heartbeat_not_noop :
  status (follower 1 0 log789 (-1)) = STATUS_FOLLOWER /\
  ae_Term (heartbeat 1 1 1 (-1)) = currentTerm (follower 1 0 log789 (-1)) /\
  consistent_spec (logEntries (follower 1 0 log789 (-1)))
    (ae_PrevLogIndex (heartbeat 1 1 1 (-1)))
    (ae_PrevLogTerm (heartbeat 1 1 1 (-1))) /\
  ae_LogEntries (heartbeat 1 1 1 (-1)) = [] /\
  ae_LeaderCommitIndex (heartbeat 1 1 1 (-1))
    <= commitIndex (follower 1 0 log789 (-1)) /\
  AppendEntries (follower 1 0 log789 (-1)) (heartbeat 1 1 1 (-1)) blank_reply
    = Some (settled_follower, mkAppendEntriesReply 1 true 0 1) /\
  votedFor (follower 1 0 log789 (-1)) = 0 /\ votedFor settled_follower = -1 /\
  lastApplied (follower 1 0 log789 (-1)) = 2 /\
  lastApplied settled_follower = 1 /\
  ~ heartbeat_is_noop (follower 1 0 log789 (-1)) (heartbeat 1 1 1 (-1))
      blank_reply.
Proof.
  split; [reflexivity |]. split; [reflexivity |].
  split.
  { split; [vm_compute; reflexivity |].
    right. exists (mkLog 8 1 1). split; reflexivity. }
  split; [reflexivity |]. split; [vm_compute; discriminate |].
  split; [vm_compute; reflexivity |].
  split; [reflexivity |]. split; [reflexivity |].
  split; [reflexivity |]. split; [reflexivity |].
  intros (rf' & reply' & Hrun & _ & _ & Hv & _).
  vm_compute in Hrun. injection Hrun as <- _.
  vm_compute in Hv. discriminate Hv.
Qed.

(** C9 at a follower that had voted for the leader and held one entry more
    than the heartbeat names: the first call settles it, the second changes
    nothing but the timer. *)
Lemma AppendEntries_repeated_heartbeat_noop_witness :
  AppendEntries (follower 1 0 log789 (-1)) (heartbeat 1 1 1 (-1)) blank_reply
    = Some (settled_follower, mkAppendEntriesReply 1 true 0 1) /\
  exists rf' reply',
    AppendEntries settled_follower (heartbeat 1 1 1 (-1)) blank_reply
      = Some (rf', reply') /\
    aer_Success reply' = true /\
    rf' = resetElectionTimer settled_follower /\
    logEntries rf' = logEntries settled_follower /\
    currentTerm rf' = currentTerm settled_follower /\
    votedFor rf' = votedFor settled_follower /\
    commitIndex rf' = commitIndex settled_follower /\
    lastApplied rf' = lastApplied settled_follower /\
    status rf' = status settled_follower /\
    commitCh rf' = commitCh settled_follower /\
    electionTimer rf' = electionTimer settled_follower ++ [TimerReset].
Proof.
  split; [vm_compute; reflexivity |].
  apply (AppendEntries_repeated_heartbeat_noop (follower 1 0 log789 (-1))
           blank_reply settled_follower (mkAppendEntriesReply 1 true 0 1)
           (heartbeat 1 1 1 (-1)) blank_reply).
  - vm_compute; reflexivity.
  - reflexivity.
  - split; [vm_compute; reflexivity |].
    right. exists (mkLog 8 1 1). split; reflexivity.
  - reflexivity.
  - vm_compute; discriminate.
Defined.

(** The first of the two calls is not a no-op: it takes back the vote the
    follower gave to the leader and cuts the third entry. *)
Example AppendEntries_first_heartbeat_changes :
  votedFor (follower 1 0 log789 (-1)) = 0 /\ votedFor settled_follower = -1 /\
  len (logEntries (follower 1 0 log789 (-1))) = 3 /\
  len (logEntries settled_follower) = 2.
Proof. repeat split. Qed.

(** ** AppendEntries: the vote *)

(** C10 at a follower that voted for peer 0 in term 1 and hears from the
    leader of term 1. *)
Lemma AppendEntries_clears_votedFor_witness :
  currentTerm (follower 1 0 log789 (-1)) <= ae_Term (heartbeat 1 2 1 (-1)) /\
  votedFor (follower 1 0 log789 (-1)) = 0 /\
  exists rf' reply',
    AppendEntries (follower 1 0 log789 (-1)) (heartbeat 1 2 1 (-1)) blank_reply
      = Some (rf', reply') /\
    votedFor rf' = NONE /\ currentTerm rf' = ae_Term (heartbeat 1 2 1 (-1)).
Proof.
  split; [vm_compute; discriminate |]. split; [reflexivity |].
  apply (AppendEntries_clears_votedFor (follower 1 0 log789 (-1))
           (heartbeat 1 2 1 (-1)) blank_reply).
  vm_compute; discriminate.
Defined.

(** ** RequestVote *)

(** C4 at a candidate of term 2 whose log is as long as the voter's. *)
Lemma RequestVote_grants_iff_witness :
  exists rf' reply',
    RequestVote (follower 1 (-1) log789 (-1)) (mkRequestVoteArgs 2 2 2 1)
      blank_vote = Some (rf', reply') /\
    rvr_VoteGranted reply' = true /\ votedFor rf' = 2 /\
    electionTimer rf' = [TimerReset].
Proof.
  destruct (RequestVote_grants_iff (follower 1 (-1) log789 (-1))
              (mkRequestVoteArgs 2 2 2 1) blank_vote)
    as (rf' & reply' & Hrun & Hiff & Hgrant & _).
  exists rf', reply'. split; [exact Hrun |].
  assert (Hyes : rvr_VoteGranted reply' = true).
  { apply Hiff. split; [reflexivity |]. right.
    split; [reflexivity | vm_compute; discriminate]. }
  split; [exact Hyes |]. exact (Hgrant Hyes).
Defined.

(** The sum wraps at the largest [int]: the candidate's log is then taken
    for the shorter one. *)
Example RequestVote_LastLogIndex_MaxInt :
  exists rf' reply',
    RequestVote (follower 1 (-1) log789 (-1)) (mkRequestVoteArgs 2 2 MaxInt 1)
      blank_vote = Some (rf', reply') /\
    rvr_VoteGranted reply' = false.
Proof. eexists _, _. split; [vm_compute; reflexivity | reflexivity]. Qed.

(** ** Start *)

Lemma leader_wf_leader term log commit : leader_wf (leader term log commit).
Proof. unfold leader_wf, leader, len. cbn. lia. Qed.


Example Start_on_follower :
  Start (follower 1 (-1) log789 (-1)) 42
    = Some (follower 1 (-1) log789 (-1), (-1, -1, false)).
Proof. reflexivity. Qed.

(** ** The reply half of the replication loop *)

(** The leader of term 1 holds one entry, not committed; peer 2 answers
    that it now holds it.  With the leader that makes two of three: the
    entry is committed and applied as message 1. *)
Lemma updatePeer_reply_success_witness :
  exists rf',
    updatePeer_reply (leader 1 [mkLog 7 1 0] (-1)) 2 (mkPeerUpdateCmd 0 1) true
      (mkAppendEntriesReply 1 true 2 0) = Some (rf', Returned) /\
    index (nextIndex rf') 2 = Some 0 /\
    index (matchIndex rf') 2 = Some 0 /\
    commitIndex rf' = 0 /\
    commitCh rf' = [mkApplyMsg 1 7].
Proof.
  destruct (updatePeer_reply_success (leader 1 [mkLog 7 1 0] (-1)) 2
              (mkPeerUpdateCmd 0 1) (mkAppendEntriesReply 1 true 2 0))
    as [Hreturn _].
  - reflexivity.
  - reflexivity.
  - reflexivity.
  - apply leader_wf_leader.
  - vm_compute. split; [discriminate | reflexivity].
  - vm_compute. split; [discriminate | reflexivity].
  - vm_compute. discriminate.
  - destruct Hreturn as (rf' & Hrun & Hni & Hmi & Hcommit & _).
    { vm_compute. discriminate. }
    exists rf'. split; [exact Hrun |]. split; [exact Hni |].
    split; [exact Hmi |].
    destruct Hcommit as (e & He & Hci & _ & Hch).
    { split; [vm_compute; discriminate | reflexivity]. }
    vm_compute in He. injection He as <-.
    split; [exact Hci | exact Hch].
Defined.

(** Without a majority the entry stays uncommitted: five peers, two of
    which hold the entry. *)
Example updatePeer_reply_without_majority :
  exists rf',
    updatePeer_reply
      (mkRaft [clientEnd 0; clientEnd 1; clientEnd 2; clientEnd 3; clientEnd 4]
         1 1 (-1) [mkLog 7 1 0] (-1) 0 STATUS_LEADER
         [0; 0; 0; 0; 0] [-1; 0; -1; -1; -1]
         [false; false; true; false; false] [[]; []; []; []; []]
         [TimerStop] [] 1)
      2 (mkPeerUpdateCmd 0 1) true (mkAppendEntriesReply 1 true 2 0)
      = Some (rf', Returned) /\
    matchIndex rf' = [-1; 0; 0; -1; -1] /\
    commitIndex rf' = -1 /\ commitCh rf' = [].
Proof.
  eexists. split; [vm_compute; reflexivity |]. repeat split.
Qed.

(** ** The current term *)

(** C7 fails twice.  [becomeFollower] takes whatever term it is given: on
    a peer in term 5, [becomeFollower(3)] leaves term 3.  And the increment
    of [BecomeCandidate] wraps: from the largest [int] the term becomes the
    smallest. *)
Lemma currentTerm_decreases :
  currentTerm (fst (becomeFollower (follower 5 (-1) log789 (-1)) 3))
    < currentTerm (follower 5 (-1) log789 (-1)) /\
  currentTerm (BecomeCandidate (follower MaxInt (-1) log789 (-1)))
    < currentTerm (follower MaxInt (-1) log789 (-1)).
Proof. split; vm_compute; reflexivity. Qed.

(** The amended C7 at a follower of term 1. *)
Lemma currentTerm_never_decreases_witness :
  is_int (currentTerm (follower 1 (-1) log789 (-1))) /\
  currentTerm (follower 1 (-1) log789 (-1)) < MaxInt /\
  currentTerm (BecomeCandidate (follower 1 (-1) log789 (-1)))
    = currentTerm (follower 1 (-1) log789 (-1)) + 1 /\
  currentTerm (follower 1 (-1) log789 (-1)) <= 4 /\
  currentTerm (follower 1 (-1) log789 (-1))
    <= currentTerm (fst (becomeFollower (follower 1 (-1) log789 (-1)) 4)).
Proof.
  assert (Hint : is_int (currentTerm (follower 1 (-1) log789 (-1))))
    by (vm_compute; split; discriminate).
  assert (Hlt : currentTerm (follower 1 (-1) log789 (-1)) < MaxInt)
    by (vm_compute; reflexivity).
  assert (Hle : currentTerm (follower 1 (-1) log789 (-1)) <= 4)
    by (vm_compute; discriminate).
  destruct (currentTerm_never_decreases (follower 1 (-1) log789 (-1)))
    as (_ & _ & Hcand & _ & Hfol & _).
  split; [exact Hint |]. split; [exact Hlt |].
  split; [exact (Hcand Hint Hlt) |]. split; [exact Hle |].
  exact (Hfol 4 Hle).
Defined.
